(** * Admin user management page and candidate list widget

    A shallow embedding of [src/app/admin/users/page.jsx] (the
    [UserManagement] component) and of the candidate list component
    ([calculateRating]), with the properties of the filter/sort engine,
    the exporter, the status label, the aggregation pass, the cascading
    delete and the rating calculator. *)

From Stdlib Require Import String Ascii.
From Stdlib Require Import List Bool ZArith NArith QArith Qround Qabs Lia Lqa.
From Stdlib Require Import Permutation Sorted.
Import ListNotations.

Set Implicit Arguments.
Set Warnings "-register-all".
Local Open Scope Z_scope.

(** ** JavaScript strings

    A JavaScript string is a sequence of UTF-16 code units. *)

Module JsString.

Definition code_unit := N.
Definition jsstring := list code_unit.

(** A literal of the source text, one code unit per character (the
    literals of the two components are ASCII). *)
Definition lit (s : string) : jsstring :=
  List.map N_of_ascii (list_ascii_of_string s).

(** [s.startsWith(p)] and [s.includes(p)]: [p] occurs in [s] as a
    contiguous run of code units. *)
Fixpoint startsWith (s p : jsstring) : bool :=
  match p, s with
  | [], _ => true
  | _ :: _, [] => false
  | c :: p', d :: s' => N.eqb c d && startsWith s' p'
  end.

Fixpoint includes (s p : jsstring) : bool :=
  startsWith s p ||
  match s with
  | [] => false
  | _ :: s' => includes s' p
  end.

(** [s < t] on two strings: lexicographic on code units. *)
Fixpoint str_lt (s t : jsstring) : bool :=
  match s, t with
  | _, [] => false
  | [], _ :: _ => true
  | c :: s', d :: t' =>
      if N.ltb c d then true
      else if N.ltb d c then false
      else str_lt s' t'
  end.

(** [Array.prototype.join] on an array of strings. *)
Fixpoint join (sep : jsstring) (parts : list jsstring) : jsstring :=
  match parts with
  | [] => []
  | [p] => p
  | p :: rest => p ++ sep ++ join sep rest
  end.

(** Decimal digits of an integer, as [String(n)] prints an integral
    number below 10^21 in magnitude. *)
Definition digit (d : Z) : code_unit := Z.to_N (48 + d).

Fixpoint digits_fuel (fuel : nat) (n : Z) (acc : jsstring) : jsstring :=
  match fuel with
  | O => acc
  | S fuel' =>
      if n <? 10 then digit n :: acc
      else digits_fuel fuel' (n / 10) (digit (n mod 10) :: acc)
  end.

Definition of_Z (n : Z) : jsstring :=
  if n <? 0
  then 45%N :: digits_fuel (S (Z.to_nat (Z.log2 (- n)))) (- n) []
  else digits_fuel (S (Z.to_nat (Z.log2 n))) n [].



End JsString.
Import JsString.

(** ** Host functions

    The builtins of the JavaScript engine and of the [moment] library that
    the components call and whose result depends on Unicode tables, on
    the date grammar accepted by the engine or on the time zone. *)

Class Engine := {
  (** [String.prototype.toLowerCase] *)
  toLowerCase : jsstring -> jsstring;
  (** [StringToNumber]: the number a string converts to, [None] for NaN *)
  StringToNumber : jsstring -> option Q;
  (** [Date.parse]: milliseconds since the epoch, [None] for NaN *)
  DateParse : jsstring -> option Q;
  (** [moment(x).format('YYYY-MM-DD HH:mm')], [None] being [null] *)
  momentFormat : option jsstring -> jsstring
}.

(** ** Values compared by the sort comparator *)

Inductive value :=
| VUndefined
| VNull
| VBool (b : bool)
| VNum (q : Q)
| VStr (s : jsstring)
| VDate (t : option Q).   (* a Date object and its time value, None = NaN *)

Definition Qltb (p q : Q) : bool :=
  match Qcompare p q with Lt => true | _ => false end.

Section Relational.
Context {E : Engine}.

(** [ToNumber], [None] for NaN; a Date converts through [valueOf]. *)
Definition ToNumber (v : value) : option Q :=
  match v with
  | VUndefined => None
  | VNull => Some 0%Q
  | VBool b => Some (if b then 1%Q else 0%Q)
  | VNum q => Some q
  | VStr s => StringToNumber s
  | VDate t => t
  end.

(** [x < y]: two strings compare by code units, anything else as
    numbers, and a comparison with NaN is false. *)
Definition js_lt (x y : value) : bool :=
  match x, y with
  | VStr s, VStr t => str_lt s t
  | _, _ =>
      match ToNumber x, ToNumber y with
      | Some p, Some q => Qltb p q
      | _, _ => false
      end
  end.

Definition js_gt (x y : value) : bool := js_lt y x.

(** [TimeClip] of a number given to the Date constructor. *)
Definition TimeClip (q : Q) : option Q :=
  if Qle_bool (Qabs q) (inject_Z 8640000000000000)
  then Some (inject_Z (Z.quot (Qnum q) (Zpos (Qden q))))
  else None.

(** [new Date(v)] *)
Definition new_Date (v : value) : value :=
  match v with
  | VStr s => VDate (DateParse s)
  | VDate t => VDate t
  | _ => VDate (match ToNumber v with Some q => TimeClip q | None => None end)
  end.

End Relational.

(** ** [Array.prototype.sort]

    The language leaves the algorithm to the engine, and the order too
    when the comparator is not a consistent one, which the comparator of
    the page is not (it never answers zero).  The page runs on V8, whose
    sort is the TimSort of [third_party/v8/builtins/array-sort.tq]: runs
    are found and made ascending, short ones are extended by binary
    insertion, and the pending runs are merged under the run-length
    invariant, with galloping.  The functions below follow that file
    name by name; a run is the list of its elements, and what a loop
    writes is the list it returns.  An array of objects has no holes and
    no [undefined] elements, and the comparator of the page returns a
    number, so [sortState.Compare] is the comparator itself. *)

Module JsArray.

Section TimSort.
Context {A : Type}.

(** [sortState.Compare]: the comparator of the caller. *)
Variable Compare : A -> A -> Z.

(** [order < 0] for [order = sortState.Compare(x, y)] *)
Definition wins (x y : A) : bool := Compare x y <? 0.

Definition kMinGallopWins : nat := 7.

Fixpoint min_run_loop (fuel n r : nat) : nat :=
  match fuel with
  | O => n + r
  | S fuel' =>
      if (64 <=? n)%nat
      then min_run_loop fuel' (Nat.div2 n) (Nat.max r (Nat.b2n (Nat.odd n)))
      else (n + r)%nat
  end.

Definition ComputeMinRunLength (n : nat) : nat := min_run_loop n n 0.

(** The loop [while (left < right)] of a binary search: [goes_left mid]
    moves [right] to [mid], otherwise [left] moves past [mid]. *)
Fixpoint bsearch (fuel : nat) (goes_left : nat -> bool) (left right : nat) : nat :=
  match fuel with
  | O => left
  | S fuel' =>
      if (left <? right)%nat then
        let mid := (left + Nat.div2 (right - left))%nat in
        if goes_left mid then bsearch fuel' goes_left left mid
        else bsearch fuel' goes_left (S mid) right
      else left
  end.

Definition binary_search (goes_left : nat -> bool) (left right : nat) : nat :=
  bsearch (right - left) goes_left left right.

(** The loop [while (offset < maxOfs)] of a gallop. *)
Fixpoint gallop_loop (fuel : nat) (continue : nat -> bool) (maxOfs lastOfs offset : nat)
    : nat * nat :=
  match fuel with
  | O => (lastOfs, offset)
  | S fuel' =>
      if (offset <? maxOfs)%nat then
        if continue offset
        then gallop_loop fuel' continue maxOfs offset (2 * offset + 1)
        else (lastOfs, offset)
      else (lastOfs, offset)
  end.

(** [GallopLeft] and [GallopRight] on the test [before i]: the element
    at [i] goes before the key. *)
Definition gallop (before : nat -> bool) (length hint : nat) : nat :=
  if before hint then
    let maxOfs := (length - hint)%nat in
    let '(lastOfs, offset) :=
      gallop_loop maxOfs (fun ofs => before (hint + ofs)%nat) maxOfs 0 1 in
    let offset := Nat.min offset maxOfs in
    binary_search (fun m => negb (before m)) (S (lastOfs + hint)) (offset + hint)
  else
    let maxOfs := S hint in
    let '(lastOfs, offset) :=
      gallop_loop maxOfs (fun ofs => negb (before (hint - ofs)%nat)) maxOfs 0 1 in
    let offset := Nat.min offset maxOfs in
    binary_search (fun m => negb (before m)) (S hint - offset) (hint - lastOfs).

Definition at_index (a : list A) (i : nat) (test : A -> bool) : bool :=
  match nth_error a i with
  | Some x => test x
  | None => false
  end.

(** [GallopLeft(array, key, base, length, hint)] on the run [a]:
    [Compare(a[i], key) < 0] puts [a[i]] before the key. *)
Definition GallopLeft (a : list A) (key : A) (hint : nat) : nat :=
  gallop (fun i => at_index a i (fun x => wins x key)) (length a) hint.

(** [GallopRight]: [Compare(key, a[i]) < 0] puts the key before [a[i]]. *)
Definition GallopRight (a : list A) (key : A) (hint : nat) : nat :=
  gallop (fun i => at_index a i (fun x => negb (wins key x))) (length a) hint.

(** The [for] loop of [CountAndMakeRun]: how many more elements the run
    has. *)
Fixpoint run_more (descending : bool) (previous : A) (l : list A) : nat :=
  match l with
  | [] => O
  | current :: rest =>
      let order_lt_0 := wins current previous in
      if (if descending then negb order_lt_0 else order_lt_0) then O
      else S (run_more descending current rest)
  end.

(** [CountAndMakeRun]: the length of the run at the head, and the array
    with that run reversed when it is descending. *)
Definition CountAndMakeRun (l : list A) : nat * list A :=
  match l with
  | elementHigh :: elementLow :: rest =>
      let isDescending := wins elementLow elementHigh in
      let runLength := S (S (run_more isDescending elementLow rest)) in
      (runLength,
       if isDescending then rev (firstn runLength l) ++ skipn runLength l else l)
  | _ => (length l, l)
  end.

(** One round of [BinaryInsertionSort]: [pivot] goes where the binary
    search of [Compare(pivot, sorted[mid]) < 0] ends. *)
Definition insert_pivot (sorted : list A) (pivot : A) : list A :=
  let left :=
    binary_search (fun mid => at_index sorted mid (fun x => wins pivot x))
      0 (length sorted) in
  firstn left sorted ++ pivot :: skipn left sorted.

Definition BinaryInsertionSort (sorted rest : list A) : list A :=
  fold_left insert_pivot rest sorted.

Inductive mode := Linear (nofWinsA nofWinsB : nat) | Galloping.

Definition emit (out : list A) (r : list A * nat) : list A * nat :=
  (out ++ fst r, snd r).

(** The two loops of [MergeLow], [a] being what is left of the copy of
    run A and [b] what is left of run B; the result is the merged text
    from [dest] on and [sortState.minGallop]. *)
Fixpoint merge_low (fuel : nat) (m : mode) (a b : list A) (minGallop : nat)
    : list A * nat :=
  match fuel with
  | O => (a ++ b, minGallop)
  | S fuel' =>
      match m with
      | Linear nofWinsA nofWinsB =>
          match a, b with
          | x :: a', y :: b' =>
              if wins y x then
                match b' with
                | [] => (y :: a, minGallop)                       (* Succeed *)
                | _ :: _ =>
                    if (minGallop <=? S nofWinsB)%nat
                    then emit [y] (merge_low fuel' Galloping a b' (S minGallop))
                    else emit [y] (merge_low fuel' (Linear 0 (S nofWinsB)) a b' minGallop)
                end
              else if (length a' =? 1)%nat then (x :: b ++ a', minGallop)  (* CopyB *)
              else if (minGallop <=? S nofWinsA)%nat
                   then emit [x] (merge_low fuel' Galloping a' b (S minGallop))
                   else emit [x] (merge_low fuel' (Linear (S nofWinsA) 0) a' b minGallop)
          | _, _ => (a ++ b, minGallop)
          end
      | Galloping =>
          let minGallop := Nat.max 1 (minGallop - 1) in
          match b with
          | [] => (a, minGallop)
          | y :: b' =>
              let nofWinsA := GallopRight a y 0 in
              let wonA := firstn nofWinsA a in
              let a1 := skipn nofWinsA a in
              if (0 <? nofWinsA)%nat && (length a1 =? 1)%nat
              then (wonA ++ b ++ a1, minGallop)                  (* CopyB *)
              else if (0 <? nofWinsA)%nat && (length a1 =? 0)%nat
              then (wonA ++ b, minGallop)                         (* Succeed *)
              else
                match b', a1 with
                | [], _ => (wonA ++ y :: a1, minGallop)           (* Succeed *)
                | _, [] => (wonA ++ b, minGallop)
                | _ :: _, x :: a2 =>
                    let nofWinsB := GallopLeft b' x 0 in
                    let wonB := firstn nofWinsB b' in
                    let b1 := skipn nofWinsB b' in
                    if (0 <? nofWinsB)%nat && (length b1 =? 0)%nat
                    then (wonA ++ y :: wonB ++ a1, minGallop)     (* Succeed *)
                    else if (length a2 =? 1)%nat
                    then (wonA ++ y :: wonB ++ x :: b1 ++ a2, minGallop)  (* CopyB *)
                    else if (kMinGallopWins <=? nofWinsA)%nat
                            || (kMinGallopWins <=? nofWinsB)%nat
                    then emit (wonA ++ y :: wonB ++ [x])
                           (merge_low fuel' Galloping a2 b1 minGallop)
                    else emit (wonA ++ y :: wonB ++ [x])
                           (merge_low fuel' (Linear 0 0) a2 b1 (S minGallop))
                end
          end
      end
  end.

(** [MergeLow]: the first element of B goes first. *)
Definition MergeLow (a b : list A) (minGallop : nat) : list A * nat :=
  match b with
  | [] => (a, minGallop)
  | y :: [] => (y :: a, minGallop)                                 (* Succeed *)
  | y :: b' =>
      if (length a =? 1)%nat then (y :: b' ++ a, minGallop)        (* CopyB *)
      else emit [y] (merge_low (length a + length b') (Linear 0 0) a b' minGallop)
  end.

(** The two loops of [MergeHigh], on the two runs read from their ends:
    [ra] is what is left of run A and [rb] what is left of the copy of
    run B, last element first; the result is the merged text from [dest]
    down, last element first. *)
Fixpoint merge_high (fuel : nat) (m : mode) (ra rb : list A) (minGallop : nat)
    : list A * nat :=
  match fuel with
  | O => (rb ++ ra, minGallop)
  | S fuel' =>
      match m with
      | Linear nofWinsA nofWinsB =>
          match ra, rb with
          | x :: ra', y :: rb' =>
              if wins y x then
                match ra' with
                | [] => (x :: rb, minGallop)                      (* Succeed *)
                | _ :: _ =>
                    if (minGallop <=? S nofWinsA)%nat
                    then emit [x] (merge_high fuel' Galloping ra' rb (S minGallop))
                    else emit [x] (merge_high fuel' (Linear (S nofWinsA) 0) ra' rb minGallop)
                end
              else if (length rb' =? 1)%nat then (y :: ra ++ rb', minGallop)  (* CopyA *)
              else if (minGallop <=? S nofWinsB)%nat
                   then emit [y] (merge_high fuel' Galloping ra rb' (S minGallop))
                   else emit [y] (merge_high fuel' (Linear 0 (S nofWinsB)) ra rb' minGallop)
          | _, _ => (rb ++ ra, minGallop)
          end
      | Galloping =>
          let minGallop := Nat.max 1 (minGallop - 1) in
          match rb with
          | [] => (ra, minGallop)
          | y :: rb' =>
              let k := GallopRight (rev ra) y (length ra - 1) in
              let nofWinsA := (length ra - k)%nat in
              let wonA := firstn nofWinsA ra in
              let ra1 := skipn nofWinsA ra in
              if (0 <? nofWinsA)%nat && (length ra1 =? 0)%nat
              then (wonA ++ rb, minGallop)                        (* Succeed *)
              else if (length rb' =? 1)%nat
              then (wonA ++ y :: ra1 ++ rb', minGallop)           (* CopyA *)
              else
                match ra1 with
                | [] => (wonA ++ rb, minGallop)
                | x :: ra2 =>
                    let k := GallopLeft (rev rb') x (length rb' - 1) in
                    let nofWinsB := (length rb' - k)%nat in
                    let wonB := firstn nofWinsB rb' in
                    let rb1 := skipn nofWinsB rb' in
                    if (0 <? nofWinsB)%nat && (length rb1 =? 1)%nat
                    then (wonA ++ y :: wonB ++ ra1 ++ rb1, minGallop)    (* CopyA *)
                    else if (0 <? nofWinsB)%nat && (length rb1 =? 0)%nat
                    then (wonA ++ y :: wonB ++ ra1, minGallop)           (* Succeed *)
                    else
                      match ra2 with
                      | [] => (wonA ++ y :: wonB ++ x :: rb1, minGallop) (* Succeed *)
                      | _ :: _ =>
                          if (kMinGallopWins <=? nofWinsA)%nat
                             || (kMinGallopWins <=? nofWinsB)%nat
                          then emit (wonA ++ y :: wonB ++ [x])
                                 (merge_high fuel' Galloping ra2 rb1 minGallop)
                          else emit (wonA ++ y :: wonB ++ [x])
                                 (merge_high fuel' (Linear 0 0) ra2 rb1 (S minGallop))
                      end
                end
          end
      end
  end.

(** [MergeHigh]: the last element of A goes last. *)
Definition MergeHigh (a b : list A) (minGallop : nat) : list A * nat :=
  match rev a with
  | [] => (b, minGallop)
  | x :: [] => (b ++ [x], minGallop)                               (* Succeed *)
  | x :: ra' =>
      if (length b =? 1)%nat then (b ++ rev ra' ++ [x], minGallop) (* CopyA *)
      else
        let r := merge_high (length ra' + length b) (Linear 0 0) ra' (rev b) minGallop in
        (rev (x :: fst r), snd r)
  end.

(** [MergeAt] on the two runs it merges. *)
Definition MergeAt (a b : list A) (minGallop : nat) : list A * nat :=
  match b with
  | [] => (a, minGallop)
  | keyRight :: _ =>
      let k := GallopRight a keyRight 0 in
      let a0 := firstn k a in
      let a1 := skipn k a in
      match rev a1 with
      | [] => (a ++ b, minGallop)
      | keyLeft :: _ =>
          let lengthB := GallopLeft b keyLeft (length b - 1) in
          let b1 := firstn lengthB b in
          let b2 := skipn lengthB b in
          match b1 with
          | [] => (a ++ b, minGallop)
          | _ :: _ =>
              let r := if (length a1 <=? length b1)%nat
                       then MergeLow a1 b1 minGallop
                       else MergeHigh a1 b1 minGallop in
              (a0 ++ fst r ++ b2, snd r)
          end
      end
  end.

(** The pending runs, the last one found first. *)
Definition run_stack := list (list A).

Definition merge_top (stack : run_stack) (minGallop : nat) : run_stack * nat :=
  match stack with
  | z :: y :: rest => let r := MergeAt y z minGallop in (fst r :: rest, snd r)
  | _ => (stack, minGallop)
  end.

Definition merge_below_top (stack : run_stack) (minGallop : nat) : run_stack * nat :=
  match stack with
  | z :: y :: x :: rest => let r := MergeAt x y minGallop in (z :: fst r :: rest, snd r)
  | _ => (stack, minGallop)
  end.

Definition RunInvariantEstablished (upper : run_stack) : bool :=
  match upper with
  | n :: nm :: nmm :: _ => (length nm + length n <? length nmm)%nat
  | _ => true
  end.

Fixpoint MergeCollapse (fuel : nat) (stack : run_stack) (minGallop : nat)
    : run_stack * nat :=
  match fuel with
  | O => (stack, minGallop)
  | S fuel' =>
      match stack with
      | z :: y :: rest =>
          if negb (RunInvariantEstablished stack)
             || negb (RunInvariantEstablished (y :: rest))
          then
            let r := match rest with
                     | x :: _ => if (length x <? length z)%nat
                                 then merge_below_top stack minGallop
                                 else merge_top stack minGallop
                     | [] => merge_top stack minGallop
                     end in
            MergeCollapse fuel' (fst r) (snd r)
          else if (length y <=? length z)%nat then
            let r := merge_top stack minGallop in
            MergeCollapse fuel' (fst r) (snd r)
          else (stack, minGallop)
      | _ => (stack, minGallop)
      end
  end.

Fixpoint MergeForceCollapse (fuel : nat) (stack : run_stack) (minGallop : nat)
    : run_stack * nat :=
  match fuel with
  | O => (stack, minGallop)
  | S fuel' =>
      match stack with
      | z :: y :: rest =>
          let r := match rest with
                   | x :: _ => if (length x <? length z)%nat
                               then merge_below_top stack minGallop
                               else merge_top stack minGallop
                   | [] => merge_top stack minGallop
                   end in
          MergeForceCollapse fuel' (fst r) (snd r)
      | _ => (stack, minGallop)
      end
  end.

(** The [while (remaining != 0)] loop of [ArrayTimSortImpl]. *)
Fixpoint find_runs (fuel : nat) (minRunLength : nat) (remaining : list A)
    (stack : run_stack) (minGallop : nat) : run_stack * nat :=
  match fuel, remaining with
  | _, [] => (stack, minGallop)
  | O, _ :: _ => (remaining :: stack, minGallop)
  | S fuel', _ :: _ =>
          let '(currentRunLength, work) := CountAndMakeRun remaining in
          let forcedRunLength :=
            if (currentRunLength <? minRunLength)%nat
            then Nat.min minRunLength (length remaining)
            else currentRunLength in
          let run :=
            BinaryInsertionSort (firstn currentRunLength work)
              (firstn (forcedRunLength - currentRunLength) (skipn currentRunLength work)) in
          let r := MergeCollapse (S (length stack)) (run :: stack) minGallop in
          find_runs fuel' minRunLength (skipn forcedRunLength work) (fst r) (snd r)
  end.

(** [Array.prototype.sort] on an array without holes. *)
Definition sort (l : list A) : list A :=
  if (length l <? 2)%nat then l
  else
    let r := find_runs (length l) (ComputeMinRunLength (length l)) l [] kMinGallopWins in
    let r' := MergeForceCollapse (length (fst r)) (fst r) (snd r) in
    concat (rev (fst r')).

End TimSort.
End JsArray.

(** What a stack of pending runs holds, in the order of the array. *)
Definition contents {A : Type} (stack : list (list A)) : list A := concat (rev stack).

(** The last element of a run, as a list. *)
Definition tail1 {A : Type} (a : list A) : list A := skipn (length a - 1) a.

(** The order of a run as it is found, before a descending one is
    turned round. *)
Definition found_order {A : Type} (R : A -> A -> Prop) (descending : bool) (x y : A) : Prop :=
  if descending then R y x else R x y.

(** ** Data model *)

(** A row of the [users] table; [None] is the SQL NULL of a nullable
    column, which the client delivers as [null]. *)
Record user_record := {
  id : Z;
  name : option jsstring;
  email : option jsstring;
  created_at : option jsstring;
  credits : option Z;
  banned : bool;
  interview_id : option jsstring
}.

(** [{...user, interviewCount, candidateCount}] *)
Record user := {
  record :> user_record;
  interviewCount : Z;
  candidateCount : Z
}.

(** The options of the sort [<select>] and the two values the direction
    button toggles between. *)
Inductive sort_key := created_at_key | name_key | email_key | interviewCount_key.
Inductive sort_order := asc | desc.

(** The [useState] cells of [UserManagement]. *)
Record state := {
  users : list user;
  filteredUsers : list user;
  loading : bool;
  searchTerm : jsstring;
  sortBy : sort_key;
  sortOrder : sort_order;
  showBanned : bool
}.

(** ** Filter/sort engine: [filterAndSortUsers] *)

Section FilterSort.
Context {E : Engine}.

Definition nullable (o : option jsstring) : value :=
  match o with Some s => VStr s | None => VNull end.

(** [a[sortBy]] *)
Definition prop (sortBy : sort_key) (a : user) : value :=
  match sortBy with
  | created_at_key => nullable (created_at a)
  | name_key => nullable (name a)
  | email_key => nullable (email a)
  | interviewCount_key => VNum (inject_Z (interviewCount a))
  end.

(** The two values the comparator compares: the property, wrapped in a
    Date when the key is [created_at]. *)
Definition sort_value (sortBy : sort_key) (a : user) : value :=
  match sortBy with
  | created_at_key => new_Date (prop sortBy a)
  | _ => prop sortBy a
  end.

(** The callback given to [filtered.sort]. *)
Definition comparator (sortBy : sort_key) (sortOrder : sort_order) (a b : user) : Z :=
  let aValue := sort_value sortBy a in
  let bValue := sort_value sortBy b in
  match sortOrder with
  | asc => if js_gt aValue bValue then 1 else -1
  | desc => if js_lt aValue bValue then 1 else -1
  end.

(** [field?.toLowerCase().includes(searchTerm.toLowerCase())], the
    optional chain giving [undefined] (falsy) on an absent field. *)
Definition field_matches (field : option jsstring) (term : jsstring) : bool :=
  match field with
  | Some s => includes (toLowerCase s) (toLowerCase term)
  | None => false
  end.

Definition matchesSearch (term : jsstring) (u : user) : bool :=
  field_matches (name u) term || field_matches (email u) term.

Definition matchesBannedFilter (show : bool) (u : user) : bool :=
  show || negb (banned u).

(** The callback given to [users.filter]. *)
Definition keeps (term : jsstring) (show : bool) (u : user) : bool :=
  matchesSearch term u && matchesBannedFilter show u.

(** The value handed to [setFilteredUsers]. *)
Definition filterAndSortUsers (us : list user) (term : jsstring)
    (by_ : sort_key) (order : sort_order) (show : bool) : list user :=
  let filtered := filter (keeps term show) us in
  JsArray.sort (comparator by_ order) filtered.

(** The effect hook: [filteredUsers] follows the five cells it reads. *)
Definition run_filter_effect (s : state) : state :=
  {| users := users s;
     filteredUsers :=
       filterAndSortUsers (users s) (searchTerm s) (sortBy s) (sortOrder s) (showBanned s);
     loading := loading s;
     searchTerm := searchTerm s;
     sortBy := sortBy s;
     sortOrder := sortOrder s;
     showBanned := showBanned s |}.

Definition setUsers (us : list user) (s : state) : state :=
  run_filter_effect
    {| users := us; filteredUsers := filteredUsers s; loading := loading s;
       searchTerm := searchTerm s; sortBy := sortBy s; sortOrder := sortOrder s;
       showBanned := showBanned s |}.

Definition setLoading (b : bool) (s : state) : state :=
  {| users := users s; filteredUsers := filteredUsers s; loading := b;
     searchTerm := searchTerm s; sortBy := sortBy s; sortOrder := sortOrder s;
     showBanned := showBanned s |}.

(** ** Status label and exporter *)

(** Truthiness of a nullable string: present and not empty. *)
Definition truthy (o : option jsstring) : bool :=
  match o with
  | Some (_ :: _) => true
  | _ => false
  end.

Definition getStatusText (u : user) : jsstring :=
  if banned u then lit "Banned"
  else if 0 <? interviewCount u then lit "Active"
  else if truthy (created_at u) then lit "Registered"
  else lit "Inactive".

(** An element of a row array: a string or a number; [join] prints it. *)
Inductive cell := CStr (s : jsstring) | CNum (n : Z).

Definition cell_text (c : cell) : jsstring :=
  match c with CStr s => s | CNum n => of_Z n end.

(** [x || 'N/A'] on a nullable string. *)
Definition or_NA (o : option jsstring) : cell :=
  match o with
  | Some (c :: s) => CStr (c :: s)
  | _ => CStr (lit "N/A")
  end.

(** [x || 0] on a nullable number. *)
Definition or_0 (o : option Z) : Z :=
  match o with
  | Some n => if n =? 0 then 0 else n
  | None => 0
  end.

Definition header : list cell :=
  [CStr (lit "Name"); CStr (lit "Email"); CStr (lit "Created Date");
   CStr (lit "Interviews Created"); CStr (lit "Candidates Interviewed");
   CStr (lit "Credits"); CStr (lit "Status")].

Definition row (u : user) : list cell :=
  [or_NA (name u);
   or_NA (email u);
   CStr (momentFormat (created_at u));
   CNum (interviewCount u);
   CNum (candidateCount u);
   CNum (or_0 (credits u));
   CStr (getStatusText u)].

Definition comma : jsstring := lit ",".
Definition newline : jsstring := [10%N].

Definition join_row (r : list cell) : jsstring := join comma (List.map cell_text r).

(** [csvContent] of [exportUsersToCSV], the text put in the Blob. *)
Definition exportUsersToCSV (visible : list user) : jsstring :=
  join newline (List.map join_row (header :: List.map row visible)).

End FilterSort.

(** ** Data access gateway

    The calls the component sends to the backend client.  A call settles
    either fulfilled with the object the component destructures
    ([data], [count], [error]) or rejected with a thrown value. *)

Inductive query :=
| SelectUsers                                   (* users, select *, newest first *)
| CountInterviews (userEmail : option jsstring)   (* Interviews, count, eq userEmail *)
| CountResults (interview : option jsstring)      (* interview_results, count, eq interview_id *)
| DeleteInterviews (userEmail : option jsstring)
| DeleteResults (interview : option jsstring)
| DeleteUser (userId : Z).

Inductive thrown :=
| BackendError (message : jsstring)   (* the [error] of a response, rethrown *)
| TypeError                           (* a property read on [null] *)
| Failure (message : jsstring).       (* a rejection of the call itself *)

Record response := {
  data : option (list user_record);
  count : option Z;
  error : option jsstring
}.

Inductive settled :=
| Fulfilled (r : response)
| Rejected (e : thrown).

(** The backend: what a call settles to, given the deletes sent before
    it, oldest first.  Reads do not enter this history, so the order in
    which the parallel count lookups are sent plays no part. *)
Definition gateway := list query -> query -> settled.

(** What the user and the developer console get to see. *)
Inductive toast := ToastSuccess (msg : jsstring) | ToastError (msg : jsstring).

Record world := {
  page : state;
  sent : list query;                      (* deletes sent so far, oldest first *)
  console : list (jsstring * thrown);     (* console.error(label, error) *)
  toasts : list toast
}.

Section Actions.
Context {E : Engine}.
Variable gw : gateway.

Definition with_page (f : state -> state) (w : world) : world :=
  {| page := f (page w); sent := sent w; console := console w; toasts := toasts w |}.

Definition console_error (label : jsstring) (e : thrown) (w : world) : world :=
  {| page := page w; sent := sent w; console := console w ++ [(label, e)];
     toasts := toasts w |}.

Definition notify (t : toast) (w : world) : world :=
  {| page := page w; sent := sent w; console := console w; toasts := toasts w ++ [t] |}.

Definition send (q : query) (w : world) : world :=
  {| page := page w; sent := sent w ++ [q]; console := console w; toasts := toasts w |}.

(** [count || 0] *)
Definition count_or_0 (c : option Z) : Z := or_0 c.

(** The async callback of [data.map]: two count lookups, one after the
    other, of which only [count] is read; then the enriched record. *)
Definition with_stats (h : list query) (u : user_record) : thrown + user :=
  match gw h (CountInterviews (email u)) with
  | Rejected e => inl e
  | Fulfilled r1 =>
      match gw h (CountResults (interview_id u)) with
      | Rejected e => inl e
      | Fulfilled r2 =>
          inr {| record := u;
                 interviewCount := count_or_0 (count r1);
                 candidateCount := count_or_0 (count r2) |}
      end
  end.

(** [Promise.all]: every result when all fulfil, a rejection when one
    rejects (the earliest in array order stands for the first in time). *)
Fixpoint Promise_all {A : Type} (ps : list (thrown + A)) : thrown + list A :=
  match ps with
  | [] => inr []
  | inl e :: _ => inl e
  | inr a :: rest =>
      match Promise_all rest with
      | inl e => inl e
      | inr l => inr (a :: l)
      end
  end.

(** The [try] block of [fetchUsers] after [setLoading(true)]: the list to
    give to [setUsers], or the value that reaches [catch]. *)
Definition fetch_try (h : list query) : thrown + list user :=
  match gw h SelectUsers with
  | Rejected e => inl e
  | Fulfilled r =>
      match error r with
      | Some msg => inl (BackendError msg)
      | None =>
          match data r with
          | None => inl TypeError
          | Some rows => Promise_all (List.map (with_stats h) rows)
          end
      end
  end.

Definition fetchUsers (w : world) : world :=
  let w1 := with_page (setLoading true) w in
  let w2 :=
    match fetch_try (sent w1) with
    | inr usersWithStats => with_page (setUsers usersWithStats) w1
    | inl e =>
        notify (ToastError (lit "Failed to fetch users"))
          (console_error (lit "Error fetching users:") e w1)
    end in
  with_page (setLoading false) w2.

(** [users.find(u => u.id === userId)?.field] *)
Definition found (userId : Z) (field : user_record -> option jsstring)
    (us : list user) : option jsstring :=
  match find (fun u : user => Z.eqb (id u) userId) us with
  | Some u => field u
  | None => None
  end.

(** [await] of a delete: what it settles to, and the world with the call
    sent. *)
Definition await (q : query) (w : world) : settled * world :=
  (gw (sent w) q, send q w).

(** The [catch] block of [deleteUser]. *)
Definition delete_failed (e : thrown) (w : world) : world :=
  notify (ToastError (lit "Failed to delete user"))
    (console_error (lit "Error deleting user:") e w).

(** [if (error) console.error(label, error)] *)
Definition log_if_error (label : jsstring) (r : response) (w : world) : world :=
  match error r with
  | Some msg => console_error label (BackendError msg) w
  | None => w
  end.

Definition deleteUser (userId : Z) (w : world) : world :=
  let us := users (page w) in
  let (s1, w1) := await (DeleteInterviews (found userId email us)) w in
  match s1 with
  | Rejected e => delete_failed e w1
  | Fulfilled r1 =>
      let w1 := log_if_error (lit "Error deleting interviews:") r1 w1 in
      let (s2, w2) := await (DeleteResults (found userId interview_id us)) w1 in
      match s2 with
      | Rejected e => delete_failed e w2
      | Fulfilled r2 =>
          let w2 := log_if_error (lit "Error deleting interview results:") r2 w2 in
          let (s3, w3) := await (DeleteUser userId) w2 in
          match s3 with
          | Rejected e => delete_failed e w3
          | Fulfilled r3 =>
              match error r3 with
              | Some msg => delete_failed (BackendError msg) w3
              | None =>
                  fetchUsers
                    (notify (ToastSuccess (lit "User deleted successfully")) w3)
              end
          end
      end
  end.

End Actions.

(** ** Rating calculator: [calculateRating] *)

(** A candidate as delivered by the backend: a JSON value.  The members
    of an object have distinct keys and are kept in the order
    [Object.values] lists them; a number is a rational (a finite double
    is one), and the arithmetic on numbers is exact. *)
Inductive json :=
| JNull
| JBool (b : bool)
| JNum (q : Q)
| JStr (s : jsstring)
| JArr (items : list json)
| JObj (members : list (jsstring * json)).

Definition jsstring_eqb (s t : jsstring) : bool :=
  if list_eq_dec N.eq_dec s t then true else false.

Fixpoint member (k : jsstring) (members : list (jsstring * json)) : option json :=
  match members with
  | [] => None
  | (k', v) :: rest => if jsstring_eqb k k' then Some v else member k rest
  end.

(** [v?.k] for a key that is neither an index nor a builtin property:
    [undefined] ([None]) on [undefined], on [null] and on anything that is
    not an object with that member. *)
Definition opt_get (v : option json) (k : jsstring) : option json :=
  match v with
  | Some (JObj members) => member k members
  | _ => None
  end.

(** [!v] *)
Definition falsy (v : option json) : bool :=
  match v with
  | None => true
  | Some JNull => true
  | Some (JBool b) => negb b
  | Some (JNum q) => Qeq_bool q 0
  | Some (JStr s) => match s with [] => true | _ => false end
  | Some (JArr _) => false
  | Some (JObj _) => false
  end.

(** [Object.values(v)] of a truthy value. *)
Definition Object_values (v : json) : list json :=
  match v with
  | JObj members => List.map snd members
  | JArr items => items
  | JStr s => List.map (fun c => JStr [c]) s
  | _ => []
  end.

(** [.filter(val => typeof val === "number")], keeping the numbers. *)
Fixpoint numbers (vs : list json) : list Q :=
  match vs with
  | [] => []
  | JNum q :: rest => q :: numbers rest
  | _ :: rest => numbers rest
  end.

(** [values.reduce((a, b) => a + b, 0)], the additions taken exactly:
    the rounding of a binary64 addition is left out, so this is the sum
    of the code where no addition rounds (scores that are integers, for
    one), and a bound on it elsewhere. *)
Definition sum (values : list Q) : Q := fold_left Qplus values 0%Q.

(** [Math.round]: the nearest integer, a half going up. *)
Definition Math_round (x : Q) : Z := Qfloor (x + (1 # 2)).

(** [candidate?.conversation_transcript?.feedback?.rating] *)
Definition rating_of (candidate : option json) : option json :=
  opt_get (opt_get (opt_get candidate (lit "conversation_transcript"))
             (lit "feedback")) (lit "rating").

(** [Object.values(rating).filter(val => typeof val === "number")] *)
Definition values_of (rating : option json) : list Q :=
  match rating with
  | Some r => numbers (Object_values r)
  | None => []
  end.

(** [Math.round(values.reduce((a, b) => a + b, 0) / values.length)],
    the division taken exactly like the additions. *)
Definition average_of (values : list Q) : Z :=
  Math_round (sum values / inject_Z (Z.of_nat (length values))).

Definition calculateRating (candidate : option json) : jsstring :=
  let rating := rating_of candidate in
  if falsy rating then lit "N/A"
  else
    let values := values_of rating in
    match values with
    | [] => lit "N/A"
    | _ :: _ => of_Z (average_of values) ++ lit "/10"
    end.

(** ** Notions of the specification *)

Section Notions.
Context {E : Engine}.

(** The instant a creation timestamp denotes; none when the field is
    absent or is not a date. *)
Definition instant (o : option jsstring) : option Q :=
  match o with
  | Some s => DateParse s
  | None => None
  end.

(** The dictionary order of two texts, on code units: at the first place
    where they differ the text with the smaller code unit is the
    smaller, and a text is smaller than the texts it begins. *)
Fixpoint lex (s t : jsstring) : comparison :=
  match s, t with
  | [], [] => Eq
  | [], _ :: _ => Lt
  | _ :: _, [] => Gt
  | c :: s', d :: t' =>
      match N.compare c d with
      | Eq => lex s' t'
      | o => o
      end
  end.

Definition text_before (s t : jsstring) : bool :=
  match lex s t with Lt => true | _ => false end.

(** An instant is earlier than another. *)
Definition earlier (p q : Q) : bool := negb (Qle_bool q p).

(** The three-way comparison in the order whose "less than" is [lt]:
    below zero, zero or above zero; two keys of which one is absent are
    not told apart. *)
Definition three_way {T : Type} (lt : T -> T -> bool) (x y : option T) : Z :=
  match x, y with
  | Some p, Some q => if lt p q then -1 else if lt q p then 1 else 0
  | _, _ => 0
  end.

(** [compare(a, b)] on a key: creation times as the instants they
    denote, names and emails in the dictionary order of their code
    units, interview counts as integers. *)
Definition compare (by_ : sort_key) (a b : user) : Z :=
  match by_ with
  | created_at_key => three_way earlier (instant (created_at a)) (instant (created_at b))
  | name_key => three_way text_before (name a) (name b)
  | email_key => three_way text_before (email a) (email b)
  | interviewCount_key =>
      three_way Z.ltb (Some (interviewCount a)) (Some (interviewCount b))
  end.



(** A display name or an email as the export shows it. *)
Definition shown (o : option jsstring) : jsstring :=
  match o with
  | Some [] => lit "N/A"
  | Some s => s
  | None => lit "N/A"
  end.

(** A credit balance, absent meaning none. *)
Definition balance (o : option Z) : Z :=
  match o with Some n => n | None => 0 end.

(** The line of a record: the seven values as they are, a comma between
    two of them. *)
Definition line (u : user) : jsstring :=
  shown (name u) ++ lit "," ++ shown (email u) ++ lit "," ++
  momentFormat (created_at u) ++ lit "," ++
  of_Z (interviewCount u) ++ lit "," ++ of_Z (candidateCount u) ++ lit "," ++
  of_Z (balance (credits u)) ++ lit "," ++ getStatusText u.

Definition header_line : jsstring :=
  lit "Name,Email,Created Date,Interviews Created,Candidates Interviewed,Credits,Status".

(** The tabular text of a collection: the header line, then for each
    record a line feed and its line. *)
Definition table (visible : list user) : jsstring :=
  header_line ++ concat (List.map (fun u => 10%N :: line u) visible).

End Notions.

(** A creation timestamp exists: the field holds a non-empty text. *)
Definition has_created_at (u : user) : Prop :=
  exists t, created_at u = Some t /\ t <> [].

(** The numeric entries of the rating mapping of a candidate, read off
    the nested structure level by level; none when a level is missing
    or is not an object. *)
Definition numeric_entries (candidate : option json) : list Q :=
  match candidate with
  | Some (JObj c) =>
      match member (lit "conversation_transcript") c with
      | Some (JObj t) =>
          match member (lit "feedback") t with
          | Some (JObj f) =>
              match member (lit "rating") f with
              | Some (JObj rating) => numbers (List.map snd rating)
              | Some (JArr rating) => numbers rating
              | _ => []
              end
          | _ => []
          end
      | _ => []
      end
  | _ => []
  end.

(** The sum of the entries. *)
Definition total (values : list Q) : Q := fold_right Qplus 0%Q values.


(** ** An engine for the examples

    The host functions on the strings of the examples below: letters of
    the Basic Latin and Greek blocks for [toLowerCase] (with the final
    sigma rule of the Unicode special casing), strings of digits for
    [StringToNumber], and the two timestamps of the sample users. *)

Module Examples.

Definition between (lo hi c : N) : bool := N.leb lo c && N.leb c hi.

Definition is_upper (c : N) : bool :=
  between 65 90 c || between 913 929 c || between 931 939 c.

Definition is_cased (c : N) : bool :=
  is_upper c || between 97 122 c || between 945 971 c.

Definition capital_sigma : N := 931.
Definition small_sigma : N := 963.
Definition small_final_sigma : N := 962.

Definition next_is_cased (s : jsstring) : bool :=
  match s with
  | c :: _ => is_cased c
  | [] => false
  end.

(** [after_cased]: the code unit before the current one is a cased
    letter. *)
Fixpoint lower_from (after_cased : bool) (s : jsstring) : jsstring :=
  match s with
  | [] => []
  | c :: rest =>
      (if N.eqb c capital_sigma
       then if after_cased && negb (next_is_cased rest)
            then small_final_sigma else small_sigma
       else if is_upper c then (c + 32)%N else c)
      :: lower_from (is_cased c) rest
  end.

Definition lower (s : jsstring) : jsstring := lower_from false s.


Fixpoint digits_value (acc : Z) (s : jsstring) : option Z :=
  match s with
  | [] => Some acc
  | c :: rest =>
      if between 48 57 c
      then digits_value (10 * acc + (Z.of_N c - 48)) rest
      else None
  end.

Definition number_of (s : jsstring) : option Q :=
  match digits_value 0 s with
  | Some n => Some (inject_Z n)
  | None => None
  end.

Definition march : jsstring := lit "2024-03-01T10:00:00+00:00".
Definition january : jsstring := lit "2024-01-15T08:30:00+00:00".

Definition parse (s : jsstring) : option Q :=
  if jsstring_eqb s march then Some (inject_Z 1709287200000)
  else if jsstring_eqb s january then Some (inject_Z 1705307400000)
  else None.

(** In the UTC zone. *)
Definition format (d : option jsstring) : jsstring :=
  match d with
  | None => lit "Invalid date"
  | Some s =>
      if jsstring_eqb s march then lit "2024-03-01 10:00"
      else if jsstring_eqb s january then lit "2024-01-15 08:30"
      else lit "Invalid date"
  end.

Definition engine : Engine :=
  {| toLowerCase := lower;
     StringToNumber := number_of;
     DateParse := parse;
     momentFormat := format |}.

Definition mk (i : Z) (n e : option jsstring) (d : option jsstring)
    (c : option Z) (b : bool) (ic cc : Z) : user :=
  {| record := {| id := i; name := n; email := e; created_at := d;
                  credits := c; banned := b; interview_id := None |};
     interviewCount := ic; candidateCount := cc |}.

Definition alice : user :=
  mk 1 (Some (lit "Alice")) (Some (lit "alice@x.com")) (Some march) (Some 5) false 2 1.
Definition bob : user :=
  mk 2 (Some (lit "Bob")) (Some (lit "bob@x.com")) (Some january) (Some 0) true 0 0.
Definition carol : user :=
  mk 3 None (Some (lit "carol@x.com")) None None false 0 0.

(** A user whose name is A, capital sigma, B. *)
Definition sigma_name : jsstring := [65; capital_sigma; 66]%N.
Definition sigma_user : user :=
  mk 4 (Some sigma_name) (Some (lit "s@x.com")) (Some march) None false 0 0.

(** The two users of the export scenario, with a creation time each. *)
Definition export_A (d : option jsstring) : user :=
  mk 1 (Some (lit "A")) (Some (lit "a@x.com")) d (Some 5) false 2 1.
Definition export_B (d : option jsstring) : user :=
  mk 2 (Some (lit "B")) (Some (lit "b@x.com")) d (Some 0) true 0 0.

Definition empty_state : state :=
  {| users := []; filteredUsers := []; loading := true; searchTerm := [];
     sortBy := created_at_key; sortOrder := desc; showBanned := true |}.

Definition world_of (us : list user) : world :=
  {| page := setUsers (E := engine) us (setLoading false empty_state);
     sent := []; console := []; toasts := [] |}.

Definition ok : response := {| data := None; count := None; error := None |}.
Definition failed (msg : jsstring) : response :=
  {| data := None; count := None; error := Some msg |}.
Definition counted (n : Z) : response :=
  {| data := None; count := Some n; error := None |}.
Definition rows (l : list user_record) : response :=
  {| data := Some l; count := None; error := None |}.

(** A backend holding alice and bob on which the count of interviews
    fails: the response carries an error and no count. *)
Definition count_fails : gateway := fun _ q =>
  match q with
  | SelectUsers => Fulfilled (rows [record alice; record bob])
  | CountInterviews _ => Fulfilled (failed (lit "canceling statement due to timeout"))
  | CountResults _ => Fulfilled (counted 1)
  | _ => Fulfilled ok
  end.

(** A backend on which a count lookup rejects. *)
Definition count_rejects : gateway := fun _ q =>
  match q with
  | SelectUsers => Fulfilled (rows [record alice; record bob])
  | CountInterviews _ => Rejected (Failure (lit "Failed to fetch"))
  | CountResults _ => Fulfilled (counted 1)
  | _ => Fulfilled ok
  end.

(** A backend on which deleting the interviews fails and everything else
    succeeds; once the user is deleted, bob alone is listed. *)
Definition interviews_delete_fails : gateway := fun h q =>
  match q with
  | SelectUsers =>
      Fulfilled (rows (if existsb (fun d => match d with DeleteUser _ => true | _ => false end) h
                       then [record bob] else [record alice; record bob]))
  | CountInterviews _ => Fulfilled (counted 0)
  | CountResults _ => Fulfilled (counted 0)
  | DeleteInterviews _ => Fulfilled (failed (lit "permission denied"))
  | DeleteResults _ => Fulfilled ok
  | DeleteUser _ => Fulfilled ok
  end.

Definition num (n : Z) : json := JNum (inject_Z n).

Definition with_rating (rating : json) : option json :=
  Some (JObj [(lit "fullname", JStr (lit "Dana"));
              (lit "conversation_transcript",
               JObj [(lit "feedback", JObj [(lit "rating", rating)])])]).

(** [{a: 4, b: 8, c: null}] *)
Definition rating_4_8_null : json :=
  JObj [(lit "a", num 4); (lit "b", num 8); (lit "c", JNull)].

(** [{a: 15}] *)
Definition rating_15 : json := JObj [(lit "a", num 15)].

End Examples.

(** ** The rest of the page: status colour, summary cards, ban action *)

Definition getStatusColor (u : user) : jsstring :=
  if banned u then lit "text-red-600 bg-red-50"
  else if 0 <? interviewCount u then lit "text-green-600 bg-green-50"
  else if truthy (created_at u) then lit "text-blue-600 bg-blue-50"
  else lit "text-gray-600 bg-gray-50".

(** The five summary cards above the table, computed from [users]. *)
Module Cards.

(** [users.length] *)
Definition totalUsers (us : list user) : nat := length us.

(** [users.filter(u => u.interviewCount > 0 && !u.banned).length] *)
Definition activeUsers (us : list user) : nat :=
  length (filter (fun u : user => (0 <? interviewCount u) && negb (banned u)) us).

(** [users.filter(u => u.banned).length] *)
Definition bannedUsers (us : list user) : nat :=
  length (filter (fun u : user => banned u) us).

(** [users.reduce((sum, user) => sum + user.interviewCount, 0)] *)
Definition totalInterviews (us : list user) : Z :=
  fold_left (fun sum (u : user) => sum + interviewCount u) us 0.

(** [users.reduce((sum, user) => sum + user.candidateCount, 0)] *)
Definition totalCandidates (us : list user) : Z :=
  fold_left (fun sum (u : user) => sum + candidateCount u) us 0.

End Cards.

(** What [from('users').update({ banned }).eq('id', userId)] settles to,
    given the deletes sent before it. *)
Definition updater := list query -> Z -> bool -> settled.

Section Ban.
Context {E : Engine}.
Variable update : updater.
Variable gw : gateway.   (* the backend as it answers the refresh *)

(** The [catch] block of [banUser]. *)
Definition ban_failed (e : thrown) (w : world) : world :=
  notify (ToastError (lit "Failed to update user status"))
    (console_error (lit "Error updating user ban status:") e w).

Definition banUser (userId : Z) (banStatus : bool) (w : world) : world :=
  match update (sent w) userId banStatus with
  | Rejected e => ban_failed e w
  | Fulfilled r =>
      match error r with
      | Some msg => ban_failed (BackendError msg) w
      | None =>
          fetchUsers gw
            (notify (ToastSuccess (if banStatus
                                   then lit "User banned successfully"
                                   else lit "User unbanned successfully")) w)
      end
  end.

End Ban.

(** ** Further notions *)

Section MoreNotions.
Context {E : Engine}.

(** [filteredUsers] is what the filter/sort engine gives on the other
    cells. *)
Definition synced (s : state) : Prop :=
  filteredUsers s
  = filterAndSortUsers (users s) (searchTerm s) (sortBy s) (sortOrder s) (showBanned s).

End MoreNotions.

(** The query cells of a state: what the user typed and chose. *)
Definition query_of (s : state) : jsstring * sort_key * sort_order * bool :=
  (searchTerm s, sortBy s, sortOrder s, showBanned s).

(** The colour class that goes with a status label. *)
Definition colour_of_label (label : jsstring) : jsstring :=
  if jsstring_eqb label (lit "Banned") then lit "text-red-600 bg-red-50"
  else if jsstring_eqb label (lit "Active") then lit "text-green-600 bg-green-50"
  else if jsstring_eqb label (lit "Registered") then lit "text-blue-600 bg-blue-50"
  else lit "text-gray-600 bg-gray-50".

Definition has_label (label : jsstring) (u : user) : bool :=
  jsstring_eqb (getStatusText u) label.

(** [s <= t] on two texts, in their dictionary order. *)
Definition str_le (s t : jsstring) : Prop := lex s t <> Gt.

(** The name of a record that has one. *)
Definition name_or_empty (u : user) : jsstring :=
  match name u with Some s => s | None => [] end.

(** Two records are in the order of their names for a direction. *)
Definition name_order (order : sort_order) (a b : user) : Prop :=
  match order with
  | asc => str_le (name_or_empty a) (name_or_empty b)
  | desc => str_le (name_or_empty b) (name_or_empty a)
  end.

(** The record has a name or an email (possibly an empty one). *)
Definition reachable (u : user) : bool :=
  match name u, email u with
  | None, None => false
  | _, _ => true
  end.



(** Sample backends for the ban action. *)
Module Scenarios.

Definition update_ok : updater := fun _ _ _ => Fulfilled Examples.ok.
Definition update_denied : updater :=
  fun _ _ _ => Fulfilled (Examples.failed (lit "permission denied")).

(** A backend that lists alice and bob and counts nothing. *)
Definition steady : gateway := fun _ q =>
  match q with
  | SelectUsers => Fulfilled (Examples.rows [record Examples.alice; record Examples.bob])
  | CountInterviews _ => Fulfilled (Examples.counted 3)
  | CountResults _ => Fulfilled (Examples.counted 0)
  | _ => Fulfilled Examples.ok
  end.

(** A backend on which the root delete is refused. *)
Definition root_delete_fails : gateway := fun _ q =>
  match q with
  | DeleteUser _ => Fulfilled (Examples.failed (lit "violates foreign key constraint"))
  | _ => steady [] q
  end.

(** A backend on which the delete of the interviews rejects. *)
Definition interviews_delete_rejects : gateway := fun _ q =>
  match q with
  | DeleteInterviews _ => Rejected (Failure (lit "Failed to fetch"))
  | _ => steady [] q
  end.

(** A user with neither a name nor an email. *)
Definition nobody : user :=
  Examples.mk 9 None None (Some Examples.march) (Some 1) false 1 0.

End Scenarios.

(** * Properties *)

(** ** Strings *)




Lemma startsWith_spec (s p : jsstring) :
  startsWith s p = true <-> exists after, s = p ++ after.
Proof.
  revert s. induction p as [|c p IH]; intros [|d s]; simpl.
  - split; [intros _; exists []; reflexivity | reflexivity].
  - split; [intros _; exists (d :: s); reflexivity | reflexivity].
  - split; [discriminate | intros [after H]; discriminate].
  - rewrite andb_true_iff, N.eqb_eq, IH. split.
    + intros [-> [after ->]]. exists after. reflexivity.
    + intros [after H]. injection H as -> ->. split; [reflexivity | eauto].
Qed.

Lemma includes_spec (s p : jsstring) :
  includes s p = true <-> exists before after, s = before ++ p ++ after.
Proof.
  induction s as [|d s IH].
  - change (includes [] p) with (startsWith [] p || false).
    rewrite orb_false_r, startsWith_spec. split.
    + intros [after H]. exists [], after. exact H.
    + intros [before [after H]]. destruct before; [eauto | discriminate].
  - change (includes (d :: s) p)
      with (startsWith (d :: s) p || includes s p).
    rewrite orb_true_iff, startsWith_spec, IH. split.
    + intros [[after H] | [before [after H]]].
      * exists [], after. exact H.
      * exists (d :: before), after. simpl. rewrite H. reflexivity.
    + intros [before [after H]]. destruct before as [|d' before].
      * left. exists after. exact H.
      * right. injection H as _ H. eauto.
Qed.

Lemma includes_trans (s p r : jsstring) :
  includes s p = true -> includes p r = true -> includes s r = true.
Proof.
  rewrite !includes_spec. intros [b1 [a1 ->]] [b2 [a2 ->]].
  exists (b1 ++ b2), (a2 ++ a1). rewrite <- !app_assoc. reflexivity.
Qed.

Lemma includes_prefix (p extra : jsstring) : includes (p ++ extra) p = true.
Proof. apply includes_spec. exists [], extra. reflexivity. Qed.

Lemma str_lt_asym (s t : jsstring) : str_lt s t = true -> str_lt t s = false.
Proof.
  revert t. induction s as [|c s IH]; intros [|d t]; simpl; try congruence.
  destruct (N.ltb_spec c d) as [Hcd|Hcd], (N.ltb_spec d c) as [Hdc|Hdc];
    try congruence; try lia.
  apply IH.
Qed.

(** The relational comparison of two strings is their dictionary
    order. *)
Lemma str_lt_lex (s t : jsstring) : str_lt s t = text_before s t.
Proof.
  unfold text_before. revert t.
  induction s as [|c s IH]; intros [|d t]; simpl; try reflexivity.
  destruct (N.compare_spec c d) as [->|Hlt|Hgt].
  - rewrite N.ltb_irrefl. apply IH.
  - apply N.ltb_lt in Hlt. rewrite Hlt. reflexivity.
  - destruct (N.ltb_spec c d); [lia|].
    apply N.ltb_lt in Hgt. rewrite Hgt. reflexivity.
Qed.

Lemma lex_antisym (s t : jsstring) : lex t s = CompOpp (lex s t).
Proof.
  revert t. induction s as [|c s IH]; intros [|d t]; simpl; try reflexivity.
  rewrite (N.compare_antisym c d).
  destruct (N.compare c d); simpl; auto.
Qed.

Lemma str_le_alt (s t : jsstring) : str_le s t <-> str_lt t s = false.
Proof.
  unfold str_le. rewrite str_lt_lex. unfold text_before.
  rewrite (lex_antisym s t). destruct (lex s t); simpl; split; congruence.
Qed.


Lemma Qltb_asym (p q : Q) : Qltb p q = true -> Qltb q p = false.
Proof.
  unfold Qltb. rewrite <- (Qcompare_antisym p q).
  destruct (Qcompare p q); simpl; congruence.
Qed.

Lemma js_lt_asym {E : Engine} (x y : value) : js_lt x y = true -> js_lt y x = false.
Proof.
  unfold js_lt.
  destruct x, y; simpl; try congruence; try apply Qltb_asym; try apply str_lt_asym;
    repeat match goal with
      | |- context [match ?o with Some _ => _ | None => _ end] => destruct o
      end; try congruence; apply Qltb_asym.
Qed.

(** ** The sort *)

Section Chains.
Context {A : Type}.
Variable R : A -> A -> Prop.

Lemma chain_app_l (l1 l2 : list A) : Sorted R (l1 ++ l2) -> Sorted R l1.
Proof.
  induction l1 as [|x l1 IH]; simpl; intros H; [constructor|].
  apply Sorted_inv in H. destruct H as [H Hd]. constructor; [auto|].
  destruct l1; simpl in *; [constructor|].
  inversion Hd; subst. constructor. assumption.
Qed.

Lemma chain_app_r (l1 l2 : list A) : Sorted R (l1 ++ l2) -> Sorted R l2.
Proof.
  induction l1 as [|x l1 IH]; simpl; intros H; [assumption|].
  apply Sorted_inv in H. tauto.
Qed.

Lemma chain_glue (l1 l2 : list A) (x : A) :
  Sorted R (l1 ++ [x]) -> Sorted R (x :: l2) -> Sorted R (l1 ++ x :: l2).
Proof.
  induction l1 as [|y l1 IH]; simpl; intros H1 H2; [assumption|].
  apply Sorted_inv in H1. destruct H1 as [H1 Hd]. constructor; [auto|].
  destruct l1; simpl in *; inversion Hd; subst; constructor; assumption.
Qed.

Lemma chain_split (l1 l2 : list A) (x : A) :
  Sorted R (l1 ++ x :: l2) -> Sorted R (l1 ++ [x]) /\ Sorted R (x :: l2).
Proof.
  intros H. split.
  - change (l1 ++ x :: l2) with (l1 ++ [x] ++ l2) in H.
    rewrite app_assoc in H. apply chain_app_l in H. exact H.
  - apply chain_app_r in H. exact H.
Qed.

Lemma chain3 (l1 l2 l3 : list A) :
  Sorted R (l1 ++ l2) -> Sorted R (l2 ++ l3) -> Sorted R (l1 ++ l3) -> Sorted R (l1 ++ l2 ++ l3).
Proof.
  destruct l2 as [|x l2]; simpl; intros H12 H23 H13; [assumption|].
  apply chain_glue.
  - apply chain_split in H12. tauto.
  - exact H23.
Qed.

Lemma chain_pair (x y : A) : R x y -> Sorted R [x; y].
Proof. intros H. repeat constructor. exact H. Qed.

Lemma chain_cons (x y : A) (l : list A) : R x y -> Sorted R (y :: l) -> Sorted R (x :: y :: l).
Proof. intros H Hl. constructor; [assumption | constructor; assumption]. Qed.

Lemma chain_join (l1 l2 l3 : list A) :
  l2 <> [] -> Sorted R (l1 ++ l2) -> Sorted R (l2 ++ l3) -> Sorted R (l1 ++ l2 ++ l3).
Proof.
  destruct l2 as [|x l2]; [congruence|]. intros _ H12 H23.
  apply chain_glue; [|exact H23]. apply chain_split in H12. tauto.
Qed.

Lemma chain_mid (l1 l2 l3 : list A) : Sorted R (l1 ++ l2 ++ l3) -> Sorted R l2.
Proof. intros H. apply chain_app_r in H. apply chain_app_l in H. exact H. Qed.

(** The merge loops keep what is merged so far, [pre], in order before
    what is left of either run, whatever follows, [post], after it.
    Moving [w] from the head of one run to the merged part needs [w] to
    go before the head [z] of the other run. *)
Lemma advance (pre w s t post : list A) (z : A) (t' : list A) :
  t = z :: t' ->
  Sorted R (pre ++ (w ++ s) ++ post) -> Sorted R (pre ++ t ++ post) -> Sorted R (w ++ [z]) ->
  Sorted R ((pre ++ w) ++ s ++ post) /\ Sorted R ((pre ++ w) ++ t ++ post).
Proof.
  intros -> Hs Ht Hw. split.
  - rewrite <- !app_assoc in *. exact Hs.
  - rewrite <- !app_assoc. cbn [app].
    rewrite app_assoc. apply chain_glue.
    + rewrite <- app_assoc. apply chain3.
      * rewrite <- !app_assoc in Hs. rewrite !app_assoc in Hs.
        apply chain_app_l, chain_app_l in Hs. exact Hs.
      * exact Hw.
      * cbn [app] in Ht. apply chain_split in Ht. tauto.
    + cbn [app] in Ht. apply chain_app_r in Ht. exact Ht.
Qed.

(** The exit of a merge loop that copies what is left of one run, [t],
    and then the one element left of the other. *)
Lemma copy_rest (pre s t post : list A) :
  s <> [] -> t <> [] ->
  Sorted R (pre ++ s ++ post) -> Sorted R (pre ++ t ++ post) -> Sorted R (t ++ s) ->
  Sorted R (pre ++ (t ++ s) ++ post).
Proof.
  intros Hs0 Ht0 Hs Ht Hts. rewrite <- app_assoc.
  apply chain_join; [exact Ht0 | |].
  - rewrite app_assoc in Ht. apply chain_app_l in Ht. exact Ht.
  - apply chain_join; [exact Hs0 | exact Hts |]. apply chain_app_r in Hs. exact Hs.
Qed.

Lemma tail1_app (w a : list A) : a <> [] -> tail1 (w ++ a) = tail1 a.
Proof.
  intros Ha. unfold tail1. rewrite length_app, skipn_app.
  assert (0 < length a)%nat by (destruct a; [congruence | simpl; lia]).
  rewrite skipn_all2 by lia. cbn [app]. f_equal. lia.
Qed.

Lemma tail1_cons (x : A) (a : list A) : a <> [] -> tail1 (x :: a) = tail1 a.
Proof. apply (tail1_app [x]). Qed.

Lemma tail1_one (a : list A) : length a = 1%nat -> tail1 a = a.
Proof. intros H. unfold tail1. rewrite H. reflexivity. Qed.


End Chains.

(** *** The output is a rearrangement of the input *)

Section Rearrangement.
Context {A : Type}.
Implicit Types (l r a b c X Y : list A) (x z : A).

Lemma pick_app a l r X :
  Permutation r (a ++ X) -> Permutation l X -> Permutation (a ++ l) r.
Proof. intros H1 H2. rewrite H1. apply Permutation_app_head, H2. Qed.

Lemma pick_cons x l r X :
  Permutation r (x :: X) -> Permutation l X -> Permutation (x :: l) r.
Proof. intros H1 H2. rewrite H1. constructor. exact H2. Qed.

Lemma find_last a : Permutation a (a ++ []).
Proof. rewrite app_nil_r. reflexivity. Qed.

Lemma find_app_app a c r Y :
  Permutation r (a ++ Y) -> Permutation (c ++ r) (a ++ c ++ Y).
Proof. intros H. rewrite H. apply Permutation_app_swap_app. Qed.

Lemma find_cons_app a z r Y :
  Permutation r (a ++ Y) -> Permutation (z :: r) (a ++ z :: Y).
Proof. intros H. rewrite H. apply Permutation_middle. Qed.

Lemma find_app_cons x c r Y :
  Permutation r (x :: Y) -> Permutation (c ++ r) (x :: c ++ Y).
Proof. intros H. rewrite H. symmetry. apply Permutation_middle. Qed.

Lemma find_cons_cons x z r Y :
  Permutation r (x :: Y) -> Permutation (z :: r) (x :: z :: Y).
Proof. intros H. rewrite H. apply perm_swap. Qed.

End Rearrangement.

Ltac find_piece :=
  first
    [ apply Permutation_refl
    | apply find_last
    | apply find_app_app; find_piece
    | apply find_cons_app; find_piece
    | apply find_app_cons; find_piece
    | apply find_cons_cons; find_piece ].

Ltac rearrange_loop :=
  rewrite ?app_nil_r;
  first
    [ apply Permutation_refl
    | eapply pick_app; [ find_piece | rearrange_loop ]
    | eapply pick_cons; [ find_piece | rearrange_loop ] ].

Ltac rearrange :=
  repeat (cbn [app]; rewrite <- app_assoc); cbn [app]; rearrange_loop.

Section SortRearranges.
Context {A : Type}.
Variable Compare : A -> A -> Z.

Lemma insert_pivot_perm (sorted : list A) (pivot : A) :
  Permutation (JsArray.insert_pivot Compare sorted pivot) (pivot :: sorted).
Proof.
  unfold JsArray.insert_pivot.
  generalize (JsArray.binary_search
    (fun mid => JsArray.at_index sorted mid (fun x => JsArray.wins Compare pivot x))
    0 (length sorted)).
  intros k. rewrite <- (firstn_skipn k sorted) at 3. rearrange.
Qed.

Lemma BinaryInsertionSort_perm (rest sorted : list A) :
  Permutation (JsArray.BinaryInsertionSort Compare sorted rest) (sorted ++ rest).
Proof.
  unfold JsArray.BinaryInsertionSort. revert sorted.
  induction rest as [|x rest IH]; intros sorted; simpl.
  - rewrite app_nil_r. reflexivity.
  - rewrite IH, insert_pivot_perm. rearrange.
Qed.

Lemma CountAndMakeRun_perm (l : list A) :
  Permutation (snd (JsArray.CountAndMakeRun Compare l)) l.
Proof.
  unfold JsArray.CountAndMakeRun.
  destruct l as [|h [|lo rest]]; try reflexivity.
  cbv zeta. destruct (JsArray.wins Compare lo h); [|reflexivity].
  cbn [snd]. rewrite <- Permutation_rev. rewrite firstn_skipn. reflexivity.
Qed.

(** cutting a run at an offset *)
Ltac cut_at k l front back :=
  let E := fresh "E" in
  assert (E : l = firstn k l ++ skipn k l) by (symmetry; apply firstn_skipn);
  revert E; generalize (firstn k l) (skipn k l); intros front back E;
  first [ subst l | rewrite E; clear E ].

(** a test that found a run used up *)
Ltac emptied E :=
  apply andb_prop in E; destruct E as [_ E];
  apply Nat.eqb_eq, length_zero_iff_nil in E; subst.

Lemma merge_low_perm (fuel : nat) :
  forall m (a b : list A) minGallop,
    Permutation (fst (JsArray.merge_low Compare fuel m a b minGallop)) (a ++ b).
Proof.
  induction fuel as [|fuel IH]; intros m a b minGallop; [reflexivity|].
  destruct m as [nA nB|]; cbn [JsArray.merge_low].
  - destruct a as [|x a']; [reflexivity|]. destruct b as [|y b']; [reflexivity|].
    destruct (JsArray.wins Compare y x).
    + destruct b' as [|y' b'']; [cbn [fst]; rearrange|].
      destruct (_ <=? _)%nat; unfold JsArray.emit; cbn [fst]; rewrite IH; rearrange.
    + destruct (length a' =? 1)%nat; [cbn [fst]; rearrange|].
      destruct (_ <=? _)%nat; unfold JsArray.emit; cbn [fst]; rewrite IH; rearrange.
  - cbv zeta. destruct b as [|y b']; [cbn [fst]; rearrange|].
    generalize (JsArray.GallopRight Compare a y 0). intros k.
    cut_at k a wonA a1.
    destruct (_ && _); [cbn [fst]; rearrange|].
    destruct (_ && _) eqn:E0; [emptied E0; cbn [fst]; rearrange|]. clear E0.
    destruct b' as [|y' b'']; [cbn [fst]; rearrange|].
    destruct a1 as [|x a2]; [cbn [fst]; rearrange|].
    generalize (JsArray.GallopLeft Compare (y' :: b'') x 0). intros k'.
    cut_at k' (y' :: b'') wonB b1.
    destruct (_ && _) eqn:E0; [emptied E0; cbn [fst]; rearrange|]. clear E0.
    destruct (_ =? _)%nat; [cbn [fst]; rearrange|].
    destruct (_ || _); unfold JsArray.emit; cbn [fst]; rewrite IH; rearrange.
Qed.

Lemma MergeLow_perm (a b : list A) (minGallop : nat) :
  Permutation (fst (JsArray.MergeLow Compare a b minGallop)) (a ++ b).
Proof.
  unfold JsArray.MergeLow. destruct b as [|y [|y' b']]; cbn [fst]; [rearrange..|].
  destruct (_ =? _)%nat; [cbn [fst]; rearrange|].
  unfold JsArray.emit; cbn [fst]. rewrite merge_low_perm. rearrange.
Qed.

Lemma merge_high_perm (fuel : nat) :
  forall m (ra rb : list A) minGallop,
    Permutation (fst (JsArray.merge_high Compare fuel m ra rb minGallop)) (ra ++ rb).
Proof.
  induction fuel as [|fuel IH]; intros m ra rb minGallop; [cbn [JsArray.merge_high fst]; rearrange|].
  destruct m as [nA nB|]; cbn [JsArray.merge_high].
  - destruct ra as [|x ra']; [cbn [fst]; rearrange|].
    destruct rb as [|y rb']; [cbn [fst]; rearrange|].
    destruct (JsArray.wins Compare y x).
    + destruct ra' as [|x' ra'']; [cbn [fst]; rearrange|].
      destruct (_ <=? _)%nat; unfold JsArray.emit; cbn [fst]; rewrite IH; rearrange.
    + destruct (length rb' =? 1)%nat; [cbn [fst]; rearrange|].
      destruct (_ <=? _)%nat; unfold JsArray.emit; cbn [fst]; rewrite IH; rearrange.
  - cbv zeta. destruct rb as [|y rb']; [cbn [fst]; rearrange|].
    generalize (length ra - JsArray.GallopRight Compare (rev ra) y (length ra - 1))%nat.
    intros k. cut_at k ra wonA ra1.
    destruct (_ && _) eqn:E0; [emptied E0; cbn [fst]; rearrange|]. clear E0.
    destruct (_ =? _)%nat; [cbn [fst]; rearrange|].
    destruct ra1 as [|x ra2]; [cbn [fst]; rearrange|].
    generalize (length rb' - JsArray.GallopLeft Compare (rev rb') x (length rb' - 1))%nat.
    intros k'. cut_at k' rb' wonB rb1.
    destruct (_ && _); [cbn [fst]; rearrange|].
    destruct (_ && _) eqn:E0; [emptied E0; cbn [fst]; rearrange|]. clear E0.
    destruct ra2 as [|x' ra3]; [cbn [fst]; rearrange|].
    destruct (_ || _); unfold JsArray.emit; cbn [fst]; rewrite IH; rearrange.
Qed.

Lemma MergeHigh_perm (a b : list A) (minGallop : nat) :
  Permutation (fst (JsArray.MergeHigh Compare a b minGallop)) (a ++ b).
Proof.
  unfold JsArray.MergeHigh. rewrite (Permutation_rev a) at 2.
  destruct (rev a) as [|x [|x' ra']]; cbn [fst]; [rearrange..|].
  destruct (_ =? _)%nat.
  - cbn [fst]. change (x :: x' :: ra') with ([x] ++ x' :: ra').
    rewrite <- (Permutation_rev (x' :: ra')). rearrange.
  - cbn [fst]. rewrite <- Permutation_rev, merge_high_perm, <- Permutation_rev. rearrange.
Qed.

Lemma MergeAt_perm (a b : list A) (minGallop : nat) :
  Permutation (fst (JsArray.MergeAt Compare a b minGallop)) (a ++ b).
Proof.
  unfold JsArray.MergeAt. destruct b as [|keyRight b']; [cbn [fst]; rearrange|].
  cbv zeta. generalize (JsArray.GallopRight Compare a keyRight 0). intros k.
  destruct (rev (skipn k a)) as [|keyLeft ?]; [reflexivity|].
  generalize (JsArray.GallopLeft Compare (keyRight :: b') keyLeft (length (keyRight :: b') - 1)).
  intros k'.
  destruct (firstn k' (keyRight :: b')) as [|y b1] eqn:E1; [reflexivity|].
  cbn [fst].
  assert (H : Permutation
                (fst (if (length (skipn k a) <=? length (y :: b1))%nat
                      then JsArray.MergeLow Compare (skipn k a) (y :: b1) minGallop
                      else JsArray.MergeHigh Compare (skipn k a) (y :: b1) minGallop))
                (skipn k a ++ y :: b1))
    by (destruct (_ <=? _)%nat; [apply MergeLow_perm | apply MergeHigh_perm]).
  rewrite H. rewrite <- E1.
  rewrite <- (firstn_skipn k a) at 3.
  rewrite <- (firstn_skipn k' (keyRight :: b')) at 3.
  rearrange.
Qed.

Lemma contents_cons (run : list A) (stack : list (list A)) :
  contents (run :: stack) = contents stack ++ run.
Proof. unfold contents. simpl. rewrite concat_app. simpl. rewrite app_nil_r. reflexivity. Qed.

Lemma merge_top_perm (stack : list (list A)) (minGallop : nat) :
  Permutation (contents (fst (JsArray.merge_top Compare stack minGallop))) (contents stack).
Proof.
  unfold JsArray.merge_top. destruct stack as [|z [|y rest]]; try reflexivity.
  cbn [fst]. rewrite !contents_cons, MergeAt_perm. rearrange.
Qed.

Lemma merge_below_top_perm (stack : list (list A)) (minGallop : nat) :
  Permutation (contents (fst (JsArray.merge_below_top Compare stack minGallop)))
    (contents stack).
Proof.
  unfold JsArray.merge_below_top. destruct stack as [|z [|y [|x rest]]]; try reflexivity.
  cbn [fst]. rewrite !contents_cons, MergeAt_perm. rearrange.
Qed.

Lemma MergeCollapse_perm (fuel : nat) :
  forall (stack : list (list A)) minGallop,
    Permutation (contents (fst (JsArray.MergeCollapse Compare fuel stack minGallop)))
      (contents stack).
Proof.
  induction fuel as [|fuel IH]; intros stack minGallop; [reflexivity|].
  cbn [JsArray.MergeCollapse]. destruct stack as [|z [|y rest]]; try reflexivity.
  destruct (_ || _).
  - rewrite IH. destruct rest as [|x rest]; [apply merge_top_perm|].
    destruct (_ <? _)%nat; [apply merge_below_top_perm | apply merge_top_perm].
  - destruct (_ <=? _)%nat; [|reflexivity]. rewrite IH. apply merge_top_perm.
Qed.

Lemma MergeForceCollapse_perm (fuel : nat) :
  forall (stack : list (list A)) minGallop,
    Permutation (contents (fst (JsArray.MergeForceCollapse Compare fuel stack minGallop)))
      (contents stack).
Proof.
  induction fuel as [|fuel IH]; intros stack minGallop; [reflexivity|].
  cbn [JsArray.MergeForceCollapse]. destruct stack as [|z [|y rest]]; try reflexivity.
  rewrite IH. destruct rest as [|x rest]; [apply merge_top_perm|].
  destruct (_ <? _)%nat; [apply merge_below_top_perm | apply merge_top_perm].
Qed.

Lemma run_more_length (descending : bool) (l : list A) :
  forall previous, (JsArray.run_more Compare descending previous l <= length l)%nat.
Proof.
  induction l as [|x l IH]; intros previous; simpl; [lia|].
  destruct (if descending then _ else _); [lia|]. specialize (IH x). lia.
Qed.

Lemma CountAndMakeRun_length (l : list A) :
  (fst (JsArray.CountAndMakeRun Compare l) <= length l)%nat
  /\ length (snd (JsArray.CountAndMakeRun Compare l)) = length l.
Proof.
  unfold JsArray.CountAndMakeRun. destruct l as [|h [|lo rest]]; [simpl; lia..|].
  cbv zeta. cbn [fst snd].
  pose proof (run_more_length (JsArray.wins Compare lo h) rest lo) as H.
  split; [simpl; lia|].
  destruct (JsArray.wins Compare lo h); [|reflexivity].
  rewrite length_app, length_rev, <- length_app, firstn_skipn. reflexivity.
Qed.

Lemma cut_in_three (n m : nat) (l : list A) :
  (n <= m)%nat -> l = firstn n l ++ firstn (m - n) (skipn n l) ++ skipn m l.
Proof.
  intros H. rewrite <- (firstn_skipn n l) at 1. f_equal.
  rewrite <- (firstn_skipn (m - n) (skipn n l)) at 1. f_equal.
  rewrite skipn_skipn. f_equal. lia.
Qed.

Lemma find_runs_perm (fuel : nat) :
  forall minRunLength (remaining : list A) stack minGallop,
    Permutation
      (contents (fst (JsArray.find_runs Compare fuel minRunLength remaining stack minGallop)))
      (contents stack ++ remaining).
Proof.
  induction fuel as [|fuel IH]; intros minRunLength remaining stack minGallop.
  - destruct remaining; cbn [JsArray.find_runs fst].
    + rewrite app_nil_r. reflexivity.
    + rewrite contents_cons. reflexivity.
  - destruct remaining as [|e remaining]; cbn [JsArray.find_runs].
    + cbn [fst]. rewrite app_nil_r. reflexivity.
    + pose proof (CountAndMakeRun_perm (e :: remaining)) as Hrun.
      pose proof (CountAndMakeRun_length (e :: remaining)) as [Hn Hlen].
      destruct (JsArray.CountAndMakeRun Compare (e :: remaining)) as [n work].
      cbn [fst snd] in Hrun, Hn, Hlen. cbv zeta.
      set (forced := if (n <? minRunLength)%nat then _ else _).
      assert (Hle : (n <= forced)%nat).
      { subst forced. destruct (n <? minRunLength)%nat eqn:E; [|lia].
        apply Nat.ltb_lt in E. lia. }
      rewrite IH, MergeCollapse_perm, contents_cons, BinaryInsertionSort_perm.
      rewrite <- Hrun. rewrite (cut_in_three work Hle) at 4.
      generalize (firstn n work) (firstn (forced - n) (skipn n work)) (skipn forced work).
      intros r1 r2 r3. rearrange.
Qed.

Theorem sort_perm (l : list A) : Permutation (JsArray.sort Compare l) l.
Proof.
  unfold JsArray.sort. destruct (_ <? _)%nat; [reflexivity|]. cbv zeta.
  fold (contents (fst (JsArray.MergeForceCollapse Compare
      (length (fst (JsArray.find_runs Compare (length l)
         (JsArray.ComputeMinRunLength (length l)) l [] JsArray.kMinGallopWins)))
      (fst (JsArray.find_runs Compare (length l)
         (JsArray.ComputeMinRunLength (length l)) l [] JsArray.kMinGallopWins))
      (snd (JsArray.find_runs Compare (length l)
         (JsArray.ComputeMinRunLength (length l)) l [] JsArray.kMinGallopWins))))).
  rewrite MergeForceCollapse_perm, find_runs_perm. reflexivity.
Qed.

End SortRearranges.

(** *** The searches *)

Lemma bsearch_spec (goes_left : nat -> bool) (fuel : nat) :
  forall left right : nat,
    (right - left <= fuel)%nat -> (left <= right)%nat ->
    let k := JsArray.bsearch fuel goes_left left right in
    (left <= k <= right)%nat
    /\ (k = left \/ goes_left (k - 1)%nat = false)
    /\ (k = right \/ goes_left k = true).
Proof.
  induction fuel as [|fuel IH]; intros left right Hfuel Hle; cbn [JsArray.bsearch].
  - cbv zeta. split; [lia|]. split; [tauto|]. left. lia.
  - destruct (Nat.ltb_spec left right) as [Hlt|Hge].
    + cbv zeta.
      assert (Hmid : (Nat.div2 (right - left) < right - left)%nat)
        by (apply Nat.lt_div2; lia).
      revert Hmid. generalize (Nat.div2 (right - left)). intros d Hmid.
      destruct (goes_left (left + d)%nat) eqn:Hgo.
      * specialize (IH left (left + d)%nat). cbv zeta in IH.
        destruct IH as (Hk & Hl & Hr); [lia..|].
        split; [lia|]. split; [exact Hl|].
        destruct Hr as [Hr|Hr]; [|tauto]. right. rewrite Hr. exact Hgo.
      * specialize (IH (S (left + d)) right). cbv zeta in IH.
        destruct IH as (Hk & Hl & Hr); [lia..|].
        split; [lia|]. split; [|exact Hr].
        destruct Hl as [Hl|Hl]; [|tauto]. right. rewrite Hl.
        replace (S (left + d) - 1)%nat with (left + d)%nat by lia. exact Hgo.
    + split; [lia|]. split; [tauto|]. left. lia.
Qed.

Lemma binary_search_spec (goes_left : nat -> bool) (left right : nat) :
  (left <= right)%nat ->
  let k := JsArray.binary_search goes_left left right in
  (left <= k <= right)%nat
  /\ (k = left \/ goes_left (k - 1)%nat = false)
  /\ (k = right \/ goes_left k = true).
Proof. intros H. apply bsearch_spec; [lia | exact H]. Qed.

Lemma gallop_loop_spec (continue : nat -> bool) (maxOfs fuel : nat) :
  forall lastOfs offset : nat,
    (lastOfs < offset)%nat -> (lastOfs < maxOfs)%nat -> (maxOfs < offset + fuel)%nat ->
    let r := JsArray.gallop_loop fuel continue maxOfs lastOfs offset in
    (fst r < snd r)%nat /\ (fst r < maxOfs)%nat
    /\ (fst r = lastOfs \/ continue (fst r) = true)
    /\ (maxOfs <= snd r \/ continue (snd r) = false)%nat.
Proof.
  induction fuel as [|fuel IH]; intros lastOfs offset H1 H2 H3; cbn [JsArray.gallop_loop].
  - cbn [fst snd]. repeat split; try lia; try tauto.
  - destruct (Nat.ltb_spec offset maxOfs) as [Hlt|Hge].
    + destruct (continue offset) eqn:Hc.
      * specialize (IH offset (2 * offset + 1)%nat). cbv zeta in IH.
        destruct IH as (Ha & Hb & Hc' & Hd); [lia..|].
        repeat split; try assumption.
        destruct Hc' as [Hc'|Hc']; [|tauto]. right. rewrite Hc'. exact Hc.
      * cbn [fst snd]. repeat split; try lia; try tauto.
    + cbn [fst snd]. repeat split; try lia; try tauto.
Qed.

Lemma gallop_spec (before : nat -> bool) (length hint : nat) :
  (hint < length)%nat ->
  let k := JsArray.gallop before length hint in
  (k <= length)%nat
  /\ (k = O \/ before (k - 1)%nat = true)
  /\ (k = length \/ before k = false).
Proof.
  intros Hhint. unfold JsArray.gallop. destruct (before hint) eqn:Hb.
  - cbv zeta.
    pose proof (@gallop_loop_spec (fun ofs => before (hint + ofs)%nat) (length - hint)
                  (length - hint) 0 1) as Hloop.
    cbv zeta in Hloop.
    destruct (JsArray.gallop_loop _ _ _ _ _) as [lastOfs offset]. cbn [fst snd] in Hloop.
    destruct Hloop as (Ha & Hb' & Hc & Hd); [lia..|].
    pose proof (@binary_search_spec (fun m => negb (before m)) (S (lastOfs + hint))
                  (Nat.min offset (length - hint) + hint)) as Hs.
    cbv zeta in Hs. destruct Hs as (Hk & Hl & Hr); [lia|].
    set (k := JsArray.binary_search _ _ _) in *. clearbody k.
    split; [lia|]. split.
    + right. destruct Hl as [Hl|Hl].
      * subst k. replace (S (lastOfs + hint) - 1)%nat with (hint + lastOfs)%nat by lia.
        destruct Hc as [Hc|Hc]; [|exact Hc]. rewrite Hc, Nat.add_0_r. exact Hb.
      * apply negb_false_iff in Hl. exact Hl.
    + destruct Hr as [Hr|Hr].
      * destruct (Nat.le_gt_cases (length - hint) offset) as [Hle|Hgt].
        -- left. lia.
        -- right. destruct Hd as [Hd|Hd]; [lia|].
           replace k with (hint + offset)%nat by lia. exact Hd.
      * right. apply negb_true_iff in Hr. exact Hr.
  - cbv zeta.
    pose proof (@gallop_loop_spec (fun ofs => negb (before (hint - ofs)%nat)) (S hint)
                  (S hint) 0 1) as Hloop.
    cbv zeta in Hloop.
    destruct (JsArray.gallop_loop _ _ _ _ _) as [lastOfs offset]. cbn [fst snd] in Hloop.
    destruct Hloop as (Ha & Hb' & Hc & Hd); [lia..|].
    pose proof (@binary_search_spec (fun m => negb (before m))
                  (S hint - Nat.min offset (S hint)) (hint - lastOfs)) as Hs.
    cbv zeta in Hs. destruct Hs as (Hk & Hl & Hr); [lia|].
    set (k := JsArray.binary_search _ _ _) in *. clearbody k.
    split; [lia|]. split.
    + destruct Hl as [Hl|Hl].
      * destruct (Nat.le_gt_cases (S hint) offset) as [Hle|Hgt].
        -- left. lia.
        -- right. destruct Hd as [Hd|Hd]; [lia|].
           apply negb_false_iff in Hd.
           replace (k - 1)%nat with (hint - offset)%nat by lia. exact Hd.
      * right. apply negb_false_iff in Hl. exact Hl.
    + right. destruct Hr as [Hr|Hr].
      * subst k. destruct Hc as [Hc|Hc].
        -- rewrite Hc, Nat.sub_0_r. exact Hb.
        -- apply negb_true_iff in Hc. exact Hc.
      * apply negb_true_iff in Hr. exact Hr.
Qed.

(** *** The output is in order

    [R x y] reads: [x] may stand right before [y].  The two laws are all
    the sort is asked of the comparator: an answer below zero puts the
    first argument first, any other answer puts the second one first. *)

Section SortedOutput.
Context {A : Type}.
Variable Compare : A -> A -> Z.
Variable R : A -> A -> Prop.
Hypothesis first_wins : forall x y, Compare x y < 0 -> R x y.
Hypothesis second_wins : forall x y, 0 <= Compare x y -> R y x.

Lemma wins_true (x y : A) : JsArray.wins Compare x y = true -> R x y.
Proof. unfold JsArray.wins. intros H. apply Z.ltb_lt in H. auto. Qed.

Lemma wins_false (x y : A) : JsArray.wins Compare x y = false -> R y x.
Proof. unfold JsArray.wins. intros H. apply Z.ltb_ge in H. auto. Qed.

Lemma firstn_S_nth (a : list A) (i : nat) (x : A) :
  nth_error a i = Some x -> firstn (S i) a = firstn i a ++ [x].
Proof.
  revert i. induction a as [|y a IH]; intros [|i] H; simpl in *; try discriminate.
  - injection H as ->. reflexivity.
  - rewrite (IH i H). reflexivity.
Qed.

Lemma skipn_nth (a : list A) (i : nat) (x : A) :
  nth_error a i = Some x -> skipn i a = x :: skipn (S i) a.
Proof.
  revert i. induction a as [|y a IH]; intros [|i] H; simpl in *; try discriminate.
  - injection H as ->. reflexivity.
  - rewrite (IH i H). reflexivity.
Qed.

(** where a key may be put into a run *)
Lemma placed (a : list A) (key : A) (k : nat) :
  Sorted R a -> (k <= length a)%nat ->
  (forall x, nth_error a (k - 1) = Some x -> (0 < k)%nat -> R x key) ->
  (forall x, nth_error a k = Some x -> R key x) ->
  Sorted R (firstn k a ++ [key]) /\ Sorted R (key :: skipn k a).
Proof.
  intros Ha Hk Hleft Hright. split.
  - destruct k as [|k]; [repeat constructor|].
    replace (S k - 1)%nat with k in Hleft by lia.
    destruct (nth_error a k) as [x|] eqn:E.
    + rewrite (firstn_S_nth _ _ E). rewrite <- app_assoc. apply chain_glue.
      * rewrite <- (firstn_S_nth _ _ E).
        rewrite <- (firstn_skipn (S k) a) in Ha. apply chain_app_l in Ha. exact Ha.
      * apply chain_pair. apply Hleft; [reflexivity | lia].
    + apply nth_error_None in E. lia.
  - destruct (nth_error a k) as [x|] eqn:E.
    + rewrite (skipn_nth _ _ E). apply chain_cons; [auto|].
      rewrite <- (skipn_nth _ _ E).
      rewrite <- (firstn_skipn k a) in Ha. apply chain_app_r in Ha. exact Ha.
    + apply nth_error_None in E. rewrite skipn_all2 by lia. repeat constructor.
Qed.

Lemma at_index_true (a : list A) (i : nat) (test : A -> bool) :
  JsArray.at_index a i test = true -> exists x, nth_error a i = Some x /\ test x = true.
Proof. unfold JsArray.at_index. destruct (nth_error a i); [eauto | discriminate]. Qed.

Lemma at_index_false (a : list A) (i : nat) (test : A -> bool) (x : A) :
  JsArray.at_index a i test = false -> nth_error a i = Some x -> test x = false.
Proof. unfold JsArray.at_index. intros H E. rewrite E in H. exact H. Qed.

Lemma gallop_placed (a : list A) (key : A) (test : A -> bool) (hint : nat) :
  (forall x, test x = true -> R x key) ->
  (forall x, test x = false -> R key x) ->
  Sorted R a -> (hint < length a)%nat ->
  let k := JsArray.gallop (fun i => JsArray.at_index a i test) (length a) hint in
  (k <= length a)%nat /\ Sorted R (firstn k a ++ [key]) /\ Sorted R (key :: skipn k a).
Proof.
  intros Ht Hf Ha Hhint.
  destruct (gallop_spec (fun i => JsArray.at_index a i test) Hhint) as (Hk & Hl & Hr).
  cbv zeta. split; [exact Hk|]. apply placed; [assumption..| |].
  - intros x E Hpos. destruct Hl as [Hl|Hl]; [lia|].
    apply at_index_true in Hl. destruct Hl as (x' & E' & Hx). 
    rewrite E in E'. injection E' as <-. auto.
  - intros x E. destruct Hr as [Hr|Hr].
    + assert (nth_error a (length a) = None) by (apply nth_error_None; lia). congruence.
    + apply Hf. exact (at_index_false _ _ _ Hr E).
Qed.

Lemma GallopLeft_placed (a : list A) (key : A) (hint : nat) :
  Sorted R a -> (hint < length a)%nat ->
  let k := JsArray.GallopLeft Compare a key hint in
  (k <= length a)%nat /\ Sorted R (firstn k a ++ [key]) /\ Sorted R (key :: skipn k a).
Proof.
  intros Ha Hhint. unfold JsArray.GallopLeft. apply gallop_placed; try assumption.
  - intros x. apply wins_true.
  - intros x. apply wins_false.
Qed.

Lemma GallopRight_placed (a : list A) (key : A) (hint : nat) :
  Sorted R a -> (hint < length a)%nat ->
  let k := JsArray.GallopRight Compare a key hint in
  (k <= length a)%nat /\ Sorted R (firstn k a ++ [key]) /\ Sorted R (key :: skipn k a).
Proof.
  intros Ha Hhint. unfold JsArray.GallopRight. apply gallop_placed; try assumption.
  - intros x H. apply negb_true_iff in H. apply wins_false. exact H.
  - intros x H. apply negb_false_iff in H. apply wins_true. exact H.
Qed.

Lemma insert_pivot_sorted (sorted : list A) (pivot : A) :
  Sorted R sorted -> Sorted R (JsArray.insert_pivot Compare sorted pivot).
Proof.
  intros Hs. unfold JsArray.insert_pivot. cbv zeta.
  destruct (@binary_search_spec
              (fun mid => JsArray.at_index sorted mid (fun x => JsArray.wins Compare pivot x))
              0 (length sorted)) as (Hk & Hl & Hr); [lia|].
  set (k := JsArray.binary_search _ _ _) in *. clearbody k.
  destruct (@placed sorted pivot k) as [H1 H2]; try assumption; try lia.
  - intros x E Hpos. destruct Hl as [Hl|Hl]; [lia|].
    apply wins_false. exact (at_index_false _ _ _ Hl E).
  - intros x E. destruct Hr as [Hr|Hr].
    + assert (nth_error sorted (length sorted) = None) by (apply nth_error_None; lia).
      congruence.
    + apply at_index_true in Hr. destruct Hr as (x' & E' & Hx).
      rewrite E in E'. injection E' as <-. apply wins_true. exact Hx.
  - apply chain_glue; assumption.
Qed.

Lemma BinaryInsertionSort_sorted (rest sorted : list A) :
  Sorted R sorted -> Sorted R (JsArray.BinaryInsertionSort Compare sorted rest).
Proof.
  unfold JsArray.BinaryInsertionSort. revert sorted.
  induction rest as [|x rest IH]; intros sorted Hs; simpl; [exact Hs|].
  apply IH, insert_pivot_sorted, Hs.
Qed.

Lemma run_more_sorted (descending : bool) (l : list A) :
  forall previous,
    Sorted (found_order R descending)
      (firstn (S (JsArray.run_more Compare descending previous l)) (previous :: l)).
Proof.
  induction l as [|current rest IH]; intros previous.
  - repeat constructor.
  - cbn [JsArray.run_more]. cbv zeta.
    destruct (if descending then _ else _) eqn:E; [repeat constructor|].
    change (firstn (S (S ?n)) (previous :: current :: rest))
      with (previous :: firstn (S n) (current :: rest)).
    specialize (IH current).
    cbn [firstn] in *. constructor; [exact IH|]. constructor.
    unfold found_order. destruct descending.
    + apply negb_false_iff in E. apply wins_true. exact E.
    + apply wins_false. exact E.
Qed.

Lemma sorted_rev (Q : A -> A -> Prop) (l : list A) :
  Sorted (fun x y => Q y x) l -> Sorted Q (rev l).
Proof.
  induction l as [|x l IH]; intros H; [constructor|].
  apply Sorted_inv in H. destruct H as [H Hd]. specialize (IH H).
  destruct l as [|y l]; [repeat constructor|].
  inversion Hd; subst. cbn [rev] in *. rewrite <- app_assoc. cbn [app].
  apply chain_glue; [exact IH | apply chain_pair; assumption].
Qed.

Lemma CountAndMakeRun_sorted (l : list A) :
  Sorted R (firstn (fst (JsArray.CountAndMakeRun Compare l))
           (snd (JsArray.CountAndMakeRun Compare l))).
Proof.
  unfold JsArray.CountAndMakeRun. destruct l as [|h [|lo rest]]; [repeat constructor..|].
  cbv zeta. cbn [fst snd].
  pose proof (run_more_sorted (JsArray.wins Compare lo h) rest lo) as Hrun.
  pose proof (run_more_length Compare (JsArray.wins Compare lo h) rest lo) as Hn.
  set (n := JsArray.run_more Compare _ lo rest) in *. clearbody n.
  assert (Hall : Sorted (found_order R (JsArray.wins Compare lo h))
                   (firstn (S (S n)) (h :: lo :: rest))).
  { change (firstn (S (S n)) (h :: lo :: rest)) with (h :: firstn (S n) (lo :: rest)).
    cbn [firstn] in *. constructor; [exact Hrun|]. constructor.
    unfold found_order. destruct (JsArray.wins Compare lo h) eqn:E.
    - apply wins_true. exact E.
    - apply wins_false. exact E. }
  destruct (JsArray.wins Compare lo h).
  - assert (Hlen : length (rev (firstn (S (S n)) (h :: lo :: rest))) = S (S n)).
    { rewrite length_rev. apply firstn_length_le. simpl. lia. }
    rewrite firstn_app, Hlen, Nat.sub_diag, firstn_O, app_nil_r.
    rewrite <- Hlen at 1. rewrite firstn_all.
    apply sorted_rev. exact Hall.
  - exact Hall.
Qed.

Lemma nonempty (l : list A) : (1 <= length l)%nat -> l <> [].
Proof. destruct l; simpl; [lia | congruence]. Qed.

Lemma emit_shape (pre o rest post : list A) :
  pre ++ (o ++ rest) ++ post = (pre ++ o) ++ rest ++ post.
Proof. rewrite <- !app_assoc. reflexivity. Qed.

Lemma merge_low_sorted (fuel : nat) :
  forall m (a b : list A) minGallop (pre post : list A),
    (length a + length b <= fuel)%nat -> (2 <= length a)%nat -> (1 <= length b)%nat ->
    Sorted R (pre ++ a ++ post) -> Sorted R (pre ++ b ++ post) -> Sorted R (b ++ tail1 a) ->
    Sorted R (pre ++ fst (JsArray.merge_low Compare fuel m a b minGallop) ++ post).
Proof.
  induction fuel as [|fuel IH]; intros m a b minGallop pre post Hfuel Hla Hlb Ha Hb Hx; [lia|].
  destruct m as [nA nB|]; cbn [JsArray.merge_low].
  - destruct a as [|x a']; [simpl in Hla; lia|]. destruct b as [|y b']; [simpl in Hlb; lia|].
    cbn [length] in *.
    destruct (JsArray.wins Compare y x) eqn:W.
    + apply wins_true in W.
      destruct (@advance _ R pre [y] b' (x :: a') post x a' eq_refl Hb Ha (@chain_pair _ R _ _ W))
        as [Hb' Ha'].
      destruct b' as [|y' b''] eqn:Eb'.
      * cbn [fst]. rewrite <- app_assoc in Ha'. exact Ha'.
      * rewrite <- Eb' in *.
        assert (Hnext : forall m mg,
                  Sorted R (pre ++ fst (JsArray.emit [y]
                    (JsArray.merge_low Compare fuel m (x :: a') b' mg)) ++ post)).
        { intros m mg. unfold JsArray.emit. cbn [fst]. rewrite emit_shape.
          apply IH; try assumption; try (subst b'; cbn [length] in *; lia).
          apply (@chain_app_r _ R [y]). exact Hx. }
        destruct (_ <=? _)%nat; apply Hnext.
    + apply wins_false in W.
      destruct (@advance _ R pre [x] a' (y :: b') post y b' eq_refl Ha Hb (@chain_pair _ R _ _ W))
        as [Ha' Hb'].
      assert (Ha0 : a' <> []) by (apply nonempty; lia).
      rewrite (@tail1_cons _ x _ Ha0) in Hx.
      destruct (Nat.eqb_spec (length a') 1) as [E1|E1].
      * cbn [fst]. rewrite (@tail1_one _ _ E1) in Hx.
        change (x :: (y :: b') ++ a') with ([x] ++ (y :: b') ++ a').
        rewrite emit_shape. apply copy_rest; try assumption. congruence.
      * assert (Hnext : forall m mg,
                  Sorted R (pre ++ fst (JsArray.emit [x]
                    (JsArray.merge_low Compare fuel m a' (y :: b') mg)) ++ post)).
        { intros m mg. unfold JsArray.emit. cbn [fst]. rewrite emit_shape.
          apply IH; try assumption; cbn [length] in *; lia. }
        destruct (_ <=? _)%nat; apply Hnext.
  - cbv zeta. destruct b as [|y b']; [simpl in Hlb; lia|].
    assert (Hac : Sorted R a) by (apply chain_mid in Ha; exact Ha).
    assert (Hbc : Sorted R (y :: b')) by (apply chain_mid in Hb; exact Hb).
    destruct (@GallopRight_placed a y 0 Hac) as (Hk & Hw & Hy); [lia|].
    set (k := JsArray.GallopRight Compare a y 0) in *. clearbody k.
    assert (Ek : length (firstn k a) = k) by (apply firstn_length_le; exact Hk).
    assert (E : a = firstn k a ++ skipn k a) by (symmetry; apply firstn_skipn).
    set (wonA := firstn k a) in *. set (a1 := skipn k a) in *. clearbody wonA a1. subst a.
    destruct (@advance _ R pre wonA a1 (y :: b') post y b' eq_refl Ha Hb Hw) as [Ha' Hb'].
    destruct ((0 <? k)%nat && (length a1 =? 1)%nat) eqn:C1.
    { apply andb_prop in C1. destruct C1 as [_ C1]. apply Nat.eqb_eq in C1.
      cbn [fst]. rewrite emit_shape.
      assert (Ha0 : a1 <> []) by (apply nonempty; lia).
      rewrite (@tail1_app _ wonA _ Ha0), (@tail1_one _ _ C1) in Hx.
      apply copy_rest; try assumption. congruence. }
    destruct ((0 <? k)%nat && (length a1 =? 0)%nat) eqn:C2.
    { apply andb_prop in C2. destruct C2 as [_ C2].
      apply Nat.eqb_eq, length_zero_iff_nil in C2. subst a1.
      cbn [fst]. rewrite emit_shape. exact Hb'. }
    assert (Hla1 : (2 <= length a1)%nat).
    { destruct (Nat.ltb_spec 0 k) as [Hpos|Hzero]; cbn [andb] in C1, C2.
      - apply Nat.eqb_neq in C1, C2. lia.
      - rewrite length_app in Hla. lia. }
    clear C1 C2.
    assert (Ha0 : a1 <> []) by (apply nonempty; lia).
    rewrite (@tail1_app _ wonA _ Ha0) in Hx.
    destruct a1 as [|x a2] eqn:Ea1; [congruence|].
    assert (Hyx : Sorted R [y; x]) by (apply (@chain_app_l _ R [y; x] a2); exact Hy).
    destruct (@advance _ R (pre ++ wonA) [y] b' (x :: a2) post x a2 eq_refl Hb' Ha' Hyx)
      as [Hb2 Ha2].
    destruct b' as [|y' b''] eqn:Eb'.
    { cbn [fst]. change (wonA ++ y :: x :: a2) with (wonA ++ [y] ++ x :: a2).
      rewrite emit_shape, emit_shape. exact Ha2. }
    rewrite <- Eb' in *.
    assert (Hbc' : Sorted R b') by (apply (@chain_app_r _ R [y]); exact Hbc).
    destruct (@GallopLeft_placed b' x 0 Hbc') as (Hk' & Hw' & Hx');
      [subst b'; simpl; lia|].
    set (k' := JsArray.GallopLeft Compare b' x 0) in *. clearbody k'.
    assert (Ek' : length (firstn k' b') = k') by (apply firstn_length_le; exact Hk').
    assert (E' : b' = firstn k' b' ++ skipn k' b') by (symmetry; apply firstn_skipn).
    set (wonB := firstn k' b') in *. set (b1 := skipn k' b') in *. clearbody wonB b1.
    assert (Hlb' : (1 <= length b')%nat) by (rewrite Eb'; simpl; lia).
    clear Eb'. subst b'.
    destruct (@advance _ R ((pre ++ wonA) ++ [y]) wonB b1 (x :: a2) post x a2 eq_refl
                Hb2 Ha2 Hw') as [Hb3 Ha3].
    destruct ((0 <? k')%nat && (length b1 =? 0)%nat) eqn:C3.
    { apply andb_prop in C3. destruct C3 as [_ C3].
      apply Nat.eqb_eq, length_zero_iff_nil in C3. subst b1.
      cbn [fst]. change (wonA ++ y :: wonB ++ x :: a2) with (wonA ++ [y] ++ wonB ++ x :: a2).
      rewrite !emit_shape. exact Ha3. }
    assert (Hlb1 : (1 <= length b1)%nat).
    { destruct (Nat.ltb_spec 0 k') as [Hpos|Hzero]; cbn [andb] in C3.
      - apply Nat.eqb_neq in C3. lia.
      - rewrite length_app in Hlb'. lia. }
    clear C3.
    assert (Hb0 : b1 <> []) by (apply nonempty; lia).
    destruct b1 as [|y1 b1'] eqn:Eb1; [congruence|].
    assert (Hxy : Sorted R [x; y1]) by (apply (@chain_app_l _ R [x; y1] b1'); exact Hx').
    destruct (@advance _ R (((pre ++ wonA) ++ [y]) ++ wonB) [x] a2 (y1 :: b1') post y1 b1'
                eq_refl Ha3 Hb3 Hxy) as [Ha4 Hb4].
    rewrite <- Eb1 in *.
    assert (Ha20 : a2 <> []) by (apply nonempty; cbn [length] in Hla1; lia).
    rewrite (@tail1_cons _ x _ Ha20) in Hx.
    assert (Hx2 : Sorted R (b1 ++ tail1 a2)).
    { apply (@chain_app_r _ R (y :: wonB)). cbn [app] in *. rewrite <- app_assoc in Hx. exact Hx. }
    assert (Hshape : forall rest,
              pre ++ (wonA ++ y :: wonB ++ x :: rest) ++ post
              = ((((pre ++ wonA) ++ [y]) ++ wonB) ++ [x]) ++ rest ++ post).
    { intros rest. repeat (cbn [app]; rewrite <- app_assoc). reflexivity. }
    destruct (Nat.eqb_spec (length a2) 1) as [E1|E1].
    { cbn [fst]. rewrite Hshape. rewrite (@tail1_one _ _ E1) in Hx2.
      apply copy_rest; assumption. }
    assert (Hnext : forall m mg,
              Sorted R (pre ++ fst (JsArray.emit (wonA ++ y :: wonB ++ [x])
                (JsArray.merge_low Compare fuel m a2 b1 mg)) ++ post)).
    { intros m mg. unfold JsArray.emit. cbn [fst].
      replace (pre ++ ((wonA ++ y :: wonB ++ [x]) ++
                 fst (JsArray.merge_low Compare fuel m a2 b1 mg)) ++ post)
        with (((((pre ++ wonA) ++ [y]) ++ wonB) ++ [x]) ++
                 fst (JsArray.merge_low Compare fuel m a2 b1 mg) ++ post)
        by (repeat (cbn [app]; rewrite <- app_assoc); reflexivity).
      apply IH; try assumption.
      - rewrite !length_app in Hfuel. cbn [length] in Hfuel.
        rewrite !length_app in Hfuel. lia.
      - cbn [length] in Hla1. lia. }
    destruct (_ || _); apply Hnext.
Qed.

Lemma MergeLow_sorted (a b : list A) (minGallop : nat) (pre post : list A) :
  (1 <= length a)%nat -> (1 <= length b)%nat ->
  Sorted R (pre ++ a ++ post) -> Sorted R (pre ++ b ++ post) ->
  Sorted R (b ++ tail1 a) -> Sorted R (firstn 1 b ++ a) ->
  Sorted R (pre ++ fst (JsArray.MergeLow Compare a b minGallop) ++ post).
Proof.
  intros Hla Hlb Ha Hb Hx Hh. unfold JsArray.MergeLow.
  destruct b as [|y b']; [simpl in Hlb; lia|]. cbn [firstn app] in Hh.
  destruct a as [|x a'] eqn:Ea; [simpl in Hla; lia|].
  assert (Hyx : Sorted R [y; x]) by (apply (@chain_app_l _ R [y; x] a'); exact Hh).
  rewrite <- Ea in *.
  destruct (@advance _ R pre [y] b' a post x a' Ea Hb Ha Hyx) as [Hb' Ha'].
  destruct b' as [|y' b''] eqn:Eb'.
  - cbn [fst]. rewrite <- app_assoc in Ha'. exact Ha'.
  - rewrite <- Eb' in *.
    destruct (Nat.eqb_spec (length a) 1) as [E1|E1].
    + cbn [fst]. rewrite (@tail1_one _ _ E1) in Hx.
      apply (@copy_rest _ R pre a (y :: b') post); try assumption; congruence.
    + unfold JsArray.emit. cbn [fst]. rewrite emit_shape.
      apply merge_low_sorted; try assumption; try lia.
      * subst b'. simpl. lia.
      * apply (@chain_app_r _ R [y]). exact Hx.
Qed.

Lemma rev_chain (l : list A) : Sorted R l -> Sorted (fun x y => R y x) (rev l).
Proof. intros H. apply sorted_rev. exact H. Qed.

Lemma chain_rev (l : list A) : Sorted (fun x y => R y x) l -> Sorted R (rev l).
Proof. intros H. apply sorted_rev. exact H. Qed.

(** a gallop of [MergeHigh], on the run read from its end *)
Lemma gallop_from_end (ra : list A) (key : A) (k : nat) :
  (k <= length ra)%nat ->
  Sorted R (firstn k (rev ra) ++ [key]) -> Sorted R (key :: skipn k (rev ra)) ->
  Sorted (fun x y => R y x) (firstn (length ra - k) ra ++ [key]) /\ Sorted (fun x y => R y x) (key :: skipn (length ra - k) ra).
Proof.
  intros Hk H1 H2. rewrite firstn_rev in H1. rewrite skipn_rev in H2. split.
  - apply rev_chain in H2. cbn [rev] in H2. rewrite rev_involutive in H2. exact H2.
  - apply rev_chain in H1. rewrite rev_app_distr, rev_involutive in H1. exact H1.
Qed.

Lemma GallopRight_from_end (ra : list A) (key : A) :
  Sorted (fun x y => R y x) ra -> (1 <= length ra)%nat ->
  let n := (length ra - JsArray.GallopRight Compare (rev ra) key (length ra - 1))%nat in
  Sorted (fun x y => R y x) (firstn n ra ++ [key]) /\ Sorted (fun x y => R y x) (key :: skipn n ra).
Proof.
  intros Hra Hl.
  destruct (@GallopRight_placed (rev ra) key (length ra - 1) (chain_rev Hra)) as (Hk & H1 & H2).
  - rewrite length_rev. lia.
  - rewrite length_rev in Hk. apply gallop_from_end; assumption.
Qed.

Lemma GallopLeft_from_end (rb : list A) (key : A) :
  Sorted (fun x y => R y x) rb -> (1 <= length rb)%nat ->
  let n := (length rb - JsArray.GallopLeft Compare (rev rb) key (length rb - 1))%nat in
  Sorted (fun x y => R y x) (firstn n rb ++ [key]) /\ Sorted (fun x y => R y x) (key :: skipn n rb).
Proof.
  intros Hrb Hl.
  destruct (@GallopLeft_placed (rev rb) key (length rb - 1) (chain_rev Hrb)) as (Hk & H1 & H2).
  - rewrite length_rev. lia.
  - rewrite length_rev in Hk. apply gallop_from_end; assumption.
Qed.

Ltac flat := repeat (cbn [app]; rewrite <- app_assoc); cbn [app].

Lemma merge_high_sorted (fuel : nat) :
  forall m (ra rb : list A) minGallop (pre post : list A),
    (length ra + length rb <= fuel)%nat -> (1 <= length ra)%nat -> (2 <= length rb)%nat ->
    Sorted (fun x y => R y x) (pre ++ ra ++ post) -> Sorted (fun x y => R y x) (pre ++ rb ++ post) -> Sorted (fun x y => R y x) (ra ++ tail1 rb) ->
    Sorted (fun x y => R y x) (pre ++ fst (JsArray.merge_high Compare fuel m ra rb minGallop) ++ post).
Proof.
  induction fuel as [|fuel IH]; intros m ra rb minGallop pre post Hfuel Hla Hlb Ha Hb Hx; [lia|].
  destruct m as [nA nB|]; cbn [JsArray.merge_high].
  - destruct ra as [|x ra']; [simpl in Hla; lia|]. destruct rb as [|y rb']; [simpl in Hlb; lia|].
    cbn [length] in *.
    destruct (JsArray.wins Compare y x) eqn:W.
    + apply wins_true in W.
      destruct (@advance _ (fun x y => R y x) pre [x] ra' (y :: rb') post y rb' eq_refl Ha Hb
                  (@chain_pair _ (fun x y => R y x) _ _ W)) as [Ha' Hb'].
      destruct ra' as [|x' ra''] eqn:Era'.
      * cbn [fst]. rewrite <- app_assoc in Hb'. exact Hb'.
      * rewrite <- Era' in *.
        assert (Hnext : forall m mg,
                  Sorted (fun x y => R y x) (pre ++ fst (JsArray.emit [x]
                    (JsArray.merge_high Compare fuel m ra' (y :: rb') mg)) ++ post)).
        { intros m mg. unfold JsArray.emit. cbn [fst]. rewrite emit_shape.
          apply IH; try assumption; try (subst ra'; cbn [length] in *; lia).
          apply (@chain_app_r _ (fun x y => R y x) [x]). exact Hx. }
        destruct (_ <=? _)%nat; apply Hnext.
    + apply wins_false in W.
      destruct (@advance _ (fun x y => R y x) pre [y] rb' (x :: ra') post x ra' eq_refl Hb Ha
                  (@chain_pair _ (fun x y => R y x) _ _ W)) as [Hb' Ha'].
      assert (Hb0 : rb' <> []) by (apply nonempty; lia).
      rewrite (@tail1_cons _ y _ Hb0) in Hx.
      destruct (Nat.eqb_spec (length rb') 1) as [E1|E1].
      * cbn [fst]. rewrite (@tail1_one _ _ E1) in Hx.
        change (y :: (x :: ra') ++ rb') with ([y] ++ (x :: ra') ++ rb').
        rewrite emit_shape. apply copy_rest; try assumption. congruence.
      * assert (Hnext : forall m mg,
                  Sorted (fun x y => R y x) (pre ++ fst (JsArray.emit [y]
                    (JsArray.merge_high Compare fuel m (x :: ra') rb' mg)) ++ post)).
        { intros m mg. unfold JsArray.emit. cbn [fst]. rewrite emit_shape.
          apply IH; try assumption; cbn [length] in *; lia. }
        destruct (_ <=? _)%nat; apply Hnext.
  - cbv zeta. destruct rb as [|y rb']; [simpl in Hlb; lia|].
    assert (Hac : Sorted (fun x y => R y x) ra) by (apply chain_mid in Ha; exact Ha).
    assert (Hbc : Sorted (fun x y => R y x) (y :: rb')) by (apply chain_mid in Hb; exact Hb).
    destruct (@GallopRight_from_end ra y Hac Hla) as [Hw Hy].
    set (n := (length ra - JsArray.GallopRight Compare (rev ra) y (length ra - 1))%nat) in *.
    assert (Hn : (n <= length ra)%nat) by (subst n; lia).
    clearbody n.
    assert (En : length (firstn n ra) = n) by (apply firstn_length_le; exact Hn).
    assert (E : ra = firstn n ra ++ skipn n ra) by (symmetry; apply firstn_skipn).
    set (wonA := firstn n ra) in *. set (ra1 := skipn n ra) in *. clearbody wonA ra1. subst ra.
    destruct (@advance _ (fun x y => R y x) pre wonA ra1 (y :: rb') post y rb' eq_refl Ha Hb Hw)
      as [Ha' Hb'].
    destruct ((0 <? n)%nat && (length ra1 =? 0)%nat) eqn:C1.
    { apply andb_prop in C1. destruct C1 as [_ C1].
      apply Nat.eqb_eq, length_zero_iff_nil in C1. subst ra1.
      cbn [fst]. rewrite emit_shape. exact Hb'. }
    assert (Hla1 : (1 <= length ra1)%nat).
    { destruct (Nat.ltb_spec 0 n) as [Hpos|Hzero]; cbn [andb] in C1.
      - apply Nat.eqb_neq in C1. lia.
      - rewrite length_app in Hla. lia. }
    clear C1.
    destruct ra1 as [|x ra2] eqn:Era1; [simpl in Hla1; lia|].
    assert (Hyx : Sorted (fun x y => R y x) [y; x])
      by (apply (@chain_app_l _ (fun x y => R y x) [y; x] ra2); exact Hy).
    destruct (@advance _ (fun x y => R y x) (pre ++ wonA) [y] rb' (x :: ra2) post x ra2 eq_refl
                Hb' Ha' Hyx) as [Hb2 Ha2].
    assert (Hb0 : rb' <> []) by (apply nonempty; cbn [length] in Hlb; lia).
    rewrite (@tail1_cons _ y _ Hb0) in Hx.
    assert (Hx1 : Sorted (fun x y => R y x) ((x :: ra2) ++ tail1 rb'))
      by (apply (@chain_app_r _ (fun x y => R y x) wonA); rewrite <- app_assoc in Hx; exact Hx).
    destruct (Nat.eqb_spec (length rb') 1) as [E1|E1].
    { cbn [fst]. rewrite (@tail1_one _ _ E1) in Hx1.
      replace (pre ++ (wonA ++ y :: (x :: ra2) ++ rb') ++ post)
        with (((pre ++ wonA) ++ [y]) ++ ((x :: ra2) ++ rb') ++ post) by (flat; reflexivity).
      apply copy_rest; try assumption. congruence. }
    assert (Hbc' : Sorted (fun x y => R y x) rb') by (apply (@chain_app_r _ (fun x y => R y x) [y]); exact Hbc).
    assert (Hlb' : (2 <= length rb')%nat) by (cbn [length] in Hlb; lia).
    destruct (@GallopLeft_from_end rb' x Hbc') as [Hw' Hx']; [lia|].
    set (n' := (length rb' - JsArray.GallopLeft Compare (rev rb') x (length rb' - 1))%nat) in *.
    assert (Hn' : (n' <= length rb')%nat) by (subst n'; lia).
    clearbody n'.
    assert (En' : length (firstn n' rb') = n') by (apply firstn_length_le; exact Hn').
    assert (E' : rb' = firstn n' rb' ++ skipn n' rb') by (symmetry; apply firstn_skipn).
    set (wonB := firstn n' rb') in *. set (rb1 := skipn n' rb') in *. clearbody wonB rb1.
    subst rb'.
    destruct (@advance _ (fun x y => R y x) ((pre ++ wonA) ++ [y]) wonB rb1 (x :: ra2) post
                x ra2 eq_refl Hb2 Ha2 Hw') as [Hb3 Ha3].
    assert (Hshape : forall rest,
              pre ++ (wonA ++ y :: wonB ++ rest) ++ post
              = (((pre ++ wonA) ++ [y]) ++ wonB) ++ rest ++ post).
    { intros rest. flat. reflexivity. }
    destruct ((0 <? n')%nat && (length rb1 =? 1)%nat) eqn:C3.
    { apply andb_prop in C3. destruct C3 as [_ C3]. apply Nat.eqb_eq in C3.
      assert (Hb10 : rb1 <> []) by (apply nonempty; lia).
      rewrite (@tail1_app _ wonB _ Hb10), (@tail1_one _ _ C3) in Hx1.
      cbn [fst]. rewrite Hshape. apply copy_rest; try assumption. congruence. }
    destruct ((0 <? n')%nat && (length rb1 =? 0)%nat) eqn:C4.
    { apply andb_prop in C4. destruct C4 as [_ C4].
      apply Nat.eqb_eq, length_zero_iff_nil in C4. subst rb1.
      cbn [fst]. rewrite Hshape. exact Ha3. }
    assert (Hlb1 : (2 <= length rb1)%nat).
    { destruct (Nat.ltb_spec 0 n') as [Hpos|Hzero]; cbn [andb] in C3, C4.
      - apply Nat.eqb_neq in C3, C4. lia.
      - rewrite length_app in Hlb'. lia. }
    clear C3 C4.
    assert (Hb10 : rb1 <> []) by (apply nonempty; lia).
    rewrite (@tail1_app _ wonB _ Hb10) in Hx1.
    destruct rb1 as [|y1 rb1'] eqn:Erb1; [congruence|].
    assert (Hxy : Sorted (fun x y => R y x) [x; y1])
      by (apply (@chain_app_l _ (fun x y => R y x) [x; y1] rb1'); exact Hx').
    destruct (@advance _ (fun x y => R y x) ((((pre ++ wonA) ++ [y]) ++ wonB)) [x] ra2
                (y1 :: rb1') post y1 rb1' eq_refl Ha3 Hb3 Hxy) as [Ha4 Hb4].
    rewrite <- Erb1 in *.
    assert (Hshape' : forall rest,
              pre ++ (wonA ++ y :: wonB ++ x :: rest) ++ post
              = ((((pre ++ wonA) ++ [y]) ++ wonB) ++ [x]) ++ rest ++ post).
    { intros rest. flat. reflexivity. }
    destruct ra2 as [|x' ra3] eqn:Era2.
    { cbn [fst]. rewrite Hshape'. exact Hb4. }
    rewrite <- Era2 in *.
    assert (Hnext : forall m mg,
              Sorted (fun x y => R y x) (pre ++ fst (JsArray.emit (wonA ++ y :: wonB ++ [x])
                (JsArray.merge_high Compare fuel m ra2 rb1 mg)) ++ post)).
    { intros m mg. unfold JsArray.emit. cbn [fst].
      replace (pre ++ ((wonA ++ y :: wonB ++ [x]) ++
                 fst (JsArray.merge_high Compare fuel m ra2 rb1 mg)) ++ post)
        with (((((pre ++ wonA) ++ [y]) ++ wonB) ++ [x]) ++
                 fst (JsArray.merge_high Compare fuel m ra2 rb1 mg) ++ post)
        by (flat; reflexivity).
      apply IH; try assumption.
      - rewrite !length_app in Hfuel. cbn [length] in Hfuel.
        rewrite !length_app in Hfuel. lia.
      - subst ra2. simpl. lia.
      - apply (@chain_app_r _ (fun x y => R y x) [x]). exact Hx1. }
    destruct (_ || _); apply Hnext.
Qed.

Lemma chain_of_rev (l : list A) : Sorted (fun x y => R y x) (rev l) -> Sorted R l.
Proof. intros H. rewrite <- (rev_involutive l). apply chain_rev. exact H. Qed.

Lemma MergeHigh_sorted (a b : list A) (minGallop : nat) (pre post : list A) :
  (1 <= length a)%nat -> (1 <= length b)%nat ->
  Sorted R (pre ++ a ++ post) -> Sorted R (pre ++ b ++ post) ->
  Sorted R (b ++ tail1 a) -> Sorted R (firstn 1 b ++ a) ->
  Sorted R (pre ++ fst (JsArray.MergeHigh Compare a b minGallop) ++ post).
Proof.
  intros Hla Hlb Ha Hb Hx Hh. unfold JsArray.MergeHigh.
  assert (Hb0 : b <> []) by (apply nonempty; exact Hlb).
  assert (Ha0 : a <> []) by (apply nonempty; exact Hla).
  assert (Hpb : Sorted R (pre ++ b)) by (rewrite app_assoc in Hb; apply chain_app_l in Hb; exact Hb).
  assert (Hap : Sorted R (a ++ post)) by (apply chain_app_r in Ha; exact Ha).
  destruct (rev a) as [|x ra'] eqn:Era.
  { apply (f_equal (@length A)) in Era. rewrite length_rev in Era. simpl in Era. lia. }
  assert (Ea : a = rev ra' ++ [x]) by (rewrite <- (rev_involutive a), Era; reflexivity).
  assert (Hx1 : Sorted R (b ++ [x])).
  { rewrite Ea in Hx. rewrite tail1_app in Hx by congruence. exact Hx. }
  destruct ra' as [|x' ra''] eqn:Era'.
  { cbn [fst]. cbn [rev app] in Ea. subst a. rewrite <- app_assoc.
    apply chain_join; [exact Hb0 | exact Hpb |].
    apply chain_join; [congruence | exact Hx1 | exact Hap]. }
  rewrite <- Era' in *.
  destruct (Nat.eqb_spec (length b) 1) as [E1|E1].
  { cbn [fst]. rewrite <- Ea. rewrite <- app_assoc.
    rewrite firstn_all2 in Hh by lia.
    apply chain_join; [exact Hb0 | exact Hpb |].
    apply chain_join; [exact Ha0 | exact Hh | exact Hap]. }
  cbn [fst]. apply chain_of_rev.
  rewrite !rev_app_distr, rev_involutive.
  set (o := fst (JsArray.merge_high Compare (length ra' + length b) (JsArray.Linear 0 0) ra'
                   (rev b) minGallop)).
  replace ((rev post ++ x :: o) ++ rev pre) with ((rev post ++ [x]) ++ o ++ rev pre)
    by (flat; reflexivity).
  subst o. apply merge_high_sorted.
  - rewrite length_rev. lia.
  - subst ra'. simpl. lia.
  - rewrite length_rev. lia.
  - apply rev_chain in Ha. rewrite Ea in Ha.
    rewrite !rev_app_distr, rev_involutive in Ha. cbn [rev app] in Ha.
    replace ((rev post ++ [x]) ++ ra' ++ rev pre) with ((rev post ++ x :: ra') ++ rev pre)
      by (flat; reflexivity).
    exact Ha.
  - assert (H : Sorted R (pre ++ b ++ x :: post)).
    { apply chain_join; [exact Hb0 | exact Hpb |]. apply chain_glue; [exact Hx1|].
      rewrite Ea, <- app_assoc in Hap. apply chain_app_r in Hap. exact Hap. }
    apply rev_chain in H. rewrite !rev_app_distr in H. cbn [rev] in H.
    replace ((rev post ++ [x]) ++ rev b ++ rev pre) with (((rev post ++ [x]) ++ rev b) ++ rev pre)
      by (flat; reflexivity).
    exact H.
  - destruct b as [|y b']; [congruence|]. cbn [firstn app] in Hh.
    replace (tail1 (rev (y :: b'))) with [y].
    + rewrite Ea in Hh. change (y :: rev ra' ++ [x]) with ((y :: rev ra') ++ [x]) in Hh.
      apply chain_app_l in Hh. apply rev_chain in Hh. cbn [rev] in Hh.
      rewrite rev_involutive in Hh. exact Hh.
    + cbn [rev]. rewrite tail1_app by congruence. reflexivity.
Qed.

Lemma MergeAt_sorted (a b : list A) (minGallop : nat) :
  Sorted R a -> Sorted R b -> Sorted R (fst (JsArray.MergeAt Compare a b minGallop)).
Proof.
  intros Ha Hb. unfold JsArray.MergeAt.
  destruct b as [|keyRight b'] eqn:Eb; [exact Ha|]. rewrite <- Eb in *. cbv zeta.
  destruct a as [|e a'] eqn:Ea.
  { rewrite skipn_nil. exact Hb. }
  rewrite <- Ea in *.
  destruct (@GallopRight_placed a keyRight 0 Ha) as (Hk & Hw & Hy); [subst a; simpl; lia|].
  set (k := JsArray.GallopRight Compare a keyRight 0) in *. clearbody k.
  assert (Hab : Sorted R (firstn k a ++ b)).
  { rewrite Eb. apply chain_glue; [exact Hw | rewrite <- Eb; exact Hb]. }
  destruct (rev (skipn k a)) as [|keyLeft rl] eqn:Er.
  { cbn [fst]. rewrite <- (firstn_skipn k a) at 1.
    apply (f_equal (@rev A)) in Er. rewrite rev_involutive in Er. rewrite Er, app_nil_r.
    exact Hab. }
  assert (Ea1 : skipn k a = rev rl ++ [keyLeft])
    by (rewrite <- (rev_involutive (skipn k a)), Er; reflexivity).
  destruct (@GallopLeft_placed b keyLeft (length b - 1) Hb) as (Hk' & Hw' & Hy');
    [rewrite Eb; simpl; lia|].
  set (k' := JsArray.GallopLeft Compare b keyLeft (length b - 1)) in *. clearbody k'.
  assert (Hall : Sorted R (a ++ skipn k' b)).
  { rewrite <- (firstn_skipn k a), Ea1. flat.
    rewrite app_assoc. apply chain_glue; [|exact Hy'].
    rewrite <- app_assoc, <- Ea1, firstn_skipn. exact Ha. }
  destruct (firstn k' b) as [|y b1'] eqn:Eb1.
  { cbn [fst]. rewrite <- (firstn_skipn k' b), Eb1. exact Hall. }
  rewrite <- Eb1 in *.
  assert (Hy1 : firstn 1 (firstn k' b) = [keyRight]).
  { rewrite Eb1. pose proof (firstn_skipn k' b) as E. rewrite Eb1, Eb in E.
    cbn [app firstn] in *. injection E as -> _. reflexivity. }
  assert (H1 : Sorted R (firstn k a ++ skipn k a ++ skipn k' b))
    by (rewrite app_assoc, firstn_skipn; exact Hall).
  assert (H2 : Sorted R (firstn k a ++ firstn k' b ++ skipn k' b))
    by (rewrite firstn_skipn; exact Hab).
  assert (H3 : Sorted R (firstn k' b ++ tail1 (skipn k a))).
  { rewrite Ea1, tail1_app by congruence. exact Hw'. }
  assert (H4 : Sorted R (firstn 1 (firstn k' b) ++ skipn k a)) by (rewrite Hy1; exact Hy).
  assert (Hl1 : (1 <= length (skipn k a))%nat) by (rewrite Ea1, length_app; simpl; lia).
  assert (Hl2 : (1 <= length (firstn k' b))%nat) by (rewrite Eb1; simpl; lia).
  cbn [fst].
  destruct (_ <=? _)%nat; [apply MergeLow_sorted | apply MergeHigh_sorted]; assumption.
Qed.

Lemma merge_top_sorted (stack : list (list A)) (minGallop : nat) :
  Forall (Sorted R) stack -> Forall (Sorted R) (fst (JsArray.merge_top Compare stack minGallop)).
Proof.
  intros H. unfold JsArray.merge_top. destruct stack as [|z [|y rest]]; try exact H.
  inversion_clear H as [|? ? Hz H']. inversion_clear H' as [|? ? Hy Hrest].
  cbn [fst]. constructor; [apply MergeAt_sorted; assumption | exact Hrest].
Qed.

Lemma merge_below_top_sorted (stack : list (list A)) (minGallop : nat) :
  Forall (Sorted R) stack -> Forall (Sorted R) (fst (JsArray.merge_below_top Compare stack minGallop)).
Proof.
  intros H. unfold JsArray.merge_below_top. destruct stack as [|z [|y [|x rest]]]; try exact H.
  inversion_clear H as [|? ? Hz H']. inversion_clear H' as [|? ? Hy H''].
  inversion_clear H'' as [|? ? Hx Hrest].
  cbn [fst]. constructor; [exact Hz|].
  constructor; [apply MergeAt_sorted; assumption | exact Hrest].
Qed.

Lemma MergeCollapse_sorted (fuel : nat) :
  forall (stack : list (list A)) minGallop,
    Forall (Sorted R) stack -> Forall (Sorted R) (fst (JsArray.MergeCollapse Compare fuel stack minGallop)).
Proof.
  induction fuel as [|fuel IH]; intros stack minGallop H; [exact H|].
  cbn [JsArray.MergeCollapse]. destruct stack as [|z [|y rest]]; try exact H.
  destruct (_ || _).
  - apply IH. destruct rest as [|x rest]; [apply merge_top_sorted; exact H|].
    destruct (_ <? _)%nat; [apply merge_below_top_sorted | apply merge_top_sorted]; exact H.
  - destruct (_ <=? _)%nat; [|exact H]. apply IH, merge_top_sorted, H.
Qed.

Lemma MergeForceCollapse_sorted (fuel : nat) :
  forall (stack : list (list A)) minGallop,
    Forall (Sorted R) stack ->
    Forall (Sorted R) (fst (JsArray.MergeForceCollapse Compare fuel stack minGallop)).
Proof.
  induction fuel as [|fuel IH]; intros stack minGallop H; [exact H|].
  cbn [JsArray.MergeForceCollapse]. destruct stack as [|z [|y rest]]; try exact H.
  apply IH. destruct rest as [|x rest]; [apply merge_top_sorted; exact H|].
  destruct (_ <? _)%nat; [apply merge_below_top_sorted | apply merge_top_sorted]; exact H.
Qed.

Lemma MergeForceCollapse_one (fuel : nat) :
  forall (stack : list (list A)) minGallop,
    (length stack <= fuel)%nat ->
    (length (fst (JsArray.MergeForceCollapse Compare fuel stack minGallop)) <= 1)%nat.
Proof.
  induction fuel as [|fuel IH]; intros stack minGallop H.
  - destruct stack; simpl in *; lia.
  - cbn [JsArray.MergeForceCollapse]. destruct stack as [|z [|y rest]]; [simpl; lia..|].
    apply IH. destruct rest as [|x rest]; [simpl in *; lia|].
    destruct (_ <? _)%nat; simpl in *; lia.
Qed.

Lemma CountAndMakeRun_positive (l : list A) :
  l <> [] -> (1 <= fst (JsArray.CountAndMakeRun Compare l))%nat.
Proof.
  unfold JsArray.CountAndMakeRun. destruct l as [|h [|lo rest]]; [congruence|simpl; lia|].
  intros _. cbv zeta. cbn [fst]. lia.
Qed.

Lemma find_runs_sorted (fuel : nat) :
  forall minRunLength (remaining : list A) stack minGallop,
    (length remaining <= fuel)%nat -> Forall (Sorted R) stack ->
    Forall (Sorted R)
      (fst (JsArray.find_runs Compare fuel minRunLength remaining stack minGallop)).
Proof.
  induction fuel as [|fuel IH]; intros minRunLength remaining stack minGallop Hfuel H.
  - destruct remaining; [exact H | simpl in Hfuel; lia].
  - destruct remaining as [|e remaining]; [exact H|]. cbn [JsArray.find_runs].
    pose proof (CountAndMakeRun_sorted (e :: remaining)) as Hrun.
    pose proof (CountAndMakeRun_length Compare (e :: remaining)) as [Hn Hlen].
    pose proof (@CountAndMakeRun_positive (e :: remaining)) as Hpos.
    destruct (JsArray.CountAndMakeRun Compare (e :: remaining)) as [n work].
    cbn [fst snd] in *. cbv zeta.
    apply IH.
    + rewrite length_skipn, Hlen.
      assert (1 <= n)%nat by (apply Hpos; congruence).
      destruct (n <? minRunLength)%nat eqn:E; [apply Nat.ltb_lt in E|]; cbn [length] in *; lia.
    + apply MergeCollapse_sorted. constructor; [|exact H].
      apply BinaryInsertionSort_sorted. exact Hrun.
Qed.

Theorem sort_sorted (l : list A) : Sorted R (JsArray.sort Compare l).
Proof.
  unfold JsArray.sort. destruct (Nat.ltb_spec (length l) 2) as [Hlt|Hge].
  - destruct l as [|x [|y l]]; [repeat constructor..|simpl in Hlt; lia].
  - cbv zeta.
    set (r := JsArray.find_runs Compare (length l) (JsArray.ComputeMinRunLength (length l)) l []
                JsArray.kMinGallopWins).
    assert (Hr : Forall (Sorted R) (fst r)) by (apply find_runs_sorted; [lia | constructor]).
    pose proof (MergeForceCollapse_sorted (length (fst r)) (snd r) Hr) as Hs.
    pose proof (@MergeForceCollapse_one (length (fst r)) (fst r) (snd r) (le_n _)) as Hone.
    destruct (fst (JsArray.MergeForceCollapse Compare (length (fst r)) (fst r) (snd r)))
      as [|run [|? ?]]; [constructor| |simpl in Hone; lia].
    simpl. rewrite app_nil_r. inversion Hs; assumption.
Qed.

End SortedOutput.

(** ** Filter/sort engine *)

Section FilterSortFacts.
Context {E : Engine}.

Lemma Qltb_inject_Z (a b : Z) : Qltb (inject_Z a) (inject_Z b) = (a <? b).
Proof.
  unfold Qltb, Qcompare, Z.ltb. simpl. rewrite !Z.mul_1_r. reflexivity.
Qed.

(** The comparator answers [1] or [-1], never zero. *)
Lemma comparator_sign (by_ : sort_key) (order : sort_order) (a b : user) :
  comparator by_ order a b = 1 \/ comparator by_ order a b = -1.
Proof.
  unfold comparator. destruct order.
  - destruct (js_gt _ _); auto.
  - destruct (js_lt _ _); auto.
Qed.





Lemma filterAndSortUsers_perm us term by_ order show :
  Permutation (filterAndSortUsers us term by_ order show)
              (filter (keeps term show) us).
Proof. apply sort_perm. Qed.



Lemma In_filterAndSortUsers us term by_ order show (u : user) :
  In u (filterAndSortUsers us term by_ order show) <->
  In u us /\ keeps term show u = true.
Proof.
  rewrite <- filter_In. split; apply Permutation_in.
  - apply filterAndSortUsers_perm.
  - symmetry. apply filterAndSortUsers_perm.
Qed.



Lemma keeps_show_banned term (u : user) :
  keeps term false u = true -> keeps term true u = true.
Proof.
  unfold keeps, matchesBannedFilter. rewrite !andb_true_iff. simpl. tauto.
Qed.

Lemma field_matches_narrow (field : option jsstring) (term extra : jsstring) :
  includes (toLowerCase (term ++ extra)) (toLowerCase term) = true ->
  field_matches field (term ++ extra) = true ->
  field_matches field term = true.
Proof.
  destruct field as [s|]; simpl; [|discriminate].
  intros Hterm Hfield. exact (includes_trans _ _ _ Hfield Hterm).
Qed.

(** A lowercasing that maps each code unit on its own keeps the
    lowercased term at the head of the lowercased longer term. *)
Lemma unitwise_lowercase_narrows (f : code_unit -> code_unit) (term extra : jsstring) :
  (forall s, toLowerCase s = List.map f s) ->
  includes (toLowerCase (term ++ extra)) (toLowerCase term) = true.
Proof.
  intros Hmap. rewrite !Hmap, map_app. apply includes_prefix.
Qed.

(** C9, as amended: including the banned records never shrinks the
    visible set, and appending characters to the search term never grows
    it provided the lowercased term still occurs in the lowercased longer
    term. *)
Theorem filter_monotone us term extra by_ order show (u : user) :
  (In u (filterAndSortUsers us term by_ order false) ->
   In u (filterAndSortUsers us term by_ order true)) /\
  (includes (toLowerCase (term ++ extra)) (toLowerCase term) = true ->
   In u (filterAndSortUsers us (term ++ extra) by_ order show) ->
   In u (filterAndSortUsers us term by_ order show)).
Proof.
  rewrite !In_filterAndSortUsers. split.
  - intros [Hin Hkeep]. split; [assumption | apply keeps_show_banned; assumption].
  - intros Hterm [Hin Hkeep]. split; [assumption|].
    unfold keeps, matchesSearch in *.
    apply andb_true_iff in Hkeep. destruct Hkeep as [Hsearch Hbanned].
    rewrite Hbanned, andb_true_r.
    apply orb_true_iff in Hsearch. apply orb_true_iff.
    destruct Hsearch as [H|H]; [left|right];
      apply (field_matches_narrow _ _ _ Hterm H).
Qed.

End FilterSortFacts.






(** C9 as stated fails: the user named A-Sigma-B is found by the term
    A-Sigma-B and not by its prefix A-Sigma, whose sigma is final and
    lowercases differently. *)
Lemma narrowing_can_grow :
  ~ (forall u : user,
       In u (filterAndSortUsers (E := Examples.engine) [Examples.sigma_user]
               ([65; 931]%N ++ [66]%N) name_key asc true) ->
       In u (filterAndSortUsers (E := Examples.engine) [Examples.sigma_user]
               [65; 931]%N name_key asc true)).
Proof.
  intros H. specialize (H Examples.sigma_user).
  vm_compute in H. apply H. left. reflexivity.
Qed.

(** Witness of C9: alice is found with the term AL and with ALi. *)
Lemma filter_monotone_witness :
  In Examples.alice
     (filterAndSortUsers (E := Examples.engine) [Examples.alice; Examples.bob]
        (lit "AL") name_key asc true) /\
  In Examples.alice
     (filterAndSortUsers (E := Examples.engine) [Examples.alice; Examples.bob]
        (lit "AL") name_key asc false).
Proof.
  destruct (filter_monotone (E := Examples.engine) [Examples.alice; Examples.bob]
              (lit "AL") (lit "i") name_key asc false Examples.alice) as [Hshow Hterm].
  split.
  - apply Hshow. vm_compute. left. reflexivity.
  - apply Hterm.
    + vm_compute. reflexivity.
    + vm_compute. left. reflexivity.
Defined.

(** ** Status label and exporter *)

Lemma truthy_iff (u : user) : truthy (created_at u) = true <-> has_created_at u.
Proof.
  unfold has_created_at. destruct (created_at u) as [[|c t]|]; simpl.
  - split; [discriminate|]. intros [t [Ht Hne]]. injection Ht as <-. congruence.
  - split; [|reflexivity]. intros _. exists (c :: t). split; congruence.
  - split; [discriminate|]. intros [t [Ht _]]. discriminate.
Qed.

(** C8: the status label is "Banned" for a banned user; otherwise
    "Active" when the interview count is positive; otherwise "Registered"
    when a creation timestamp exists; otherwise "Inactive".  In
    particular a banned user with five interviews is "Banned". *)
Theorem status_priority (u : user) :
  (banned u = true -> getStatusText u = lit "Banned") /\
  (banned u = false -> 0 < interviewCount u -> getStatusText u = lit "Active") /\
  (banned u = false -> interviewCount u <= 0 -> has_created_at u ->
   getStatusText u = lit "Registered") /\
  (banned u = false -> interviewCount u <= 0 -> ~ has_created_at u ->
   getStatusText u = lit "Inactive") /\
  (banned u = true -> interviewCount u = 5 -> getStatusText u = lit "Banned").
Proof.
  unfold getStatusText. rewrite <- truthy_iff.
  destruct (banned u), (Z.ltb_spec 0 (interviewCount u)),
    (truthy (created_at u)); repeat split; intros; try reflexivity;
    try congruence; try lia.
Qed.

(** Witness of C8: a banned user with five interviews. *)
Lemma status_priority_witness :
  getStatusText
    (Examples.mk 7 (Some (lit "Eve")) None (Some Examples.march) None true 5 0)
  = lit "Banned".
Proof.
  apply (proj2 (proj2 (proj2 (proj2 (status_priority
           (Examples.mk 7 (Some (lit "Eve")) None (Some Examples.march) None true 5 0)))))).
  - reflexivity.
  - reflexivity.
Defined.

Section ExportFacts.
Context {E : Engine}.

Lemma or_NA_shown (o : option jsstring) : cell_text (or_NA o) = shown o.
Proof. destruct o as [[|c s]|]; reflexivity. Qed.

Lemma or_0_balance (o : option Z) : or_0 o = balance o.
Proof.
  destruct o as [n|]; simpl; [|reflexivity].
  destruct (Z.eqb_spec n 0); congruence.
Qed.

Lemma join_row_line (u : user) : join_row (row u) = line u.
Proof.
  unfold join_row, row, line. simpl.
  rewrite !or_NA_shown, or_0_balance. reflexivity.
Qed.

Lemma join_lines (sep first : jsstring) (rest : list jsstring) :
  join sep (first :: rest) = first ++ concat (List.map (fun l => sep ++ l) rest).
Proof.
  revert first. induction rest as [|second rest IH]; intros first.
  - simpl. rewrite app_nil_r. reflexivity.
  - change (join sep (first :: second :: rest))
      with (first ++ sep ++ join sep (second :: rest)).
    rewrite IH. simpl. rewrite <- app_assoc. reflexivity.
Qed.

Lemma export_table (visible : list user) : exportUsersToCSV visible = table visible.
Proof.
  unfold exportUsersToCSV, table. rewrite map_cons, join_lines, !map_map.
  f_equal. f_equal. apply map_ext. intros u. rewrite join_row_line. reflexivity.
Qed.

(** The text exported for a collection is the one exported for the
    records before any one of them, then a line feed and the line of
    that record, then the lines of the records after it. *)
Lemma export_split (before : list user) (u : user) (after : list user) :
  exportUsersToCSV (before ++ u :: after)
  = exportUsersToCSV before ++ 10%N :: line u
    ++ concat (List.map (fun v => 10%N :: line v) after).
Proof.
  rewrite !export_table. unfold table.
  rewrite map_app, concat_app, <- app_assoc. reflexivity.
Qed.

(** C7: the exported text is the fixed header line followed, for each
    visible record in turn, by a line feed and the line of the record,
    whose seven values are separated by commas and written as they are:
    a name is copied unchanged right after the line feed, whatever it
    contains, so that the name [Doe, Jane] gives a line of eight
    columns; and the two users of the scenario give the lines
    [A,a@x.com,<date>,2,1,5,Active] and [B,b@x.com,<date>,0,0,0,Banned]. *)
Theorem export_format :
  (forall visible,
     exportUsersToCSV visible
     = header_line ++ concat (List.map (fun u => 10%N :: line u) visible)) /\
  (forall before (u : user) after c n,
     name u = Some (c :: n) ->
     exists rest,
       exportUsersToCSV (before ++ u :: after)
       = exportUsersToCSV before ++ 10%N :: (c :: n) ++ lit "," ++ rest) /\
  exportUsersToCSV
    [Examples.mk 9 (Some (lit "Doe, Jane")) (Some (lit "jane@x.com")) None (Some 1)
       false 0 0]
  = header_line ++ 10%N :: lit "Doe, Jane,jane@x.com," ++ momentFormat None
    ++ lit ",0,0,1,Inactive" /\
  (forall dA dB,
     exportUsersToCSV [Examples.export_A dA; Examples.export_B dB]
     = header_line
       ++ 10%N :: lit "A,a@x.com," ++ momentFormat dA ++ lit ",2,1,5,Active"
       ++ 10%N :: lit "B,b@x.com," ++ momentFormat dB ++ lit ",0,0,0,Banned").
Proof.
  split; [exact export_table|]. split; [|split].
  - intros before u after c n Hname. rewrite export_split.
    unfold line. rewrite Hname. cbn [shown]. eexists.
    rewrite <- !app_assoc. reflexivity.
  - rewrite export_table. unfold table, line. simpl.
    rewrite <- !app_assoc. reflexivity.
  - intros dA dB. rewrite export_table. unfold table, line. simpl.
    rewrite <- !app_assoc. reflexivity.
Qed.

(** C10: in the exported text, right after the text exported for the
    records before it and a line feed, a record without a name reads
    [N/A] in the first column, one without an email reads [N/A] in the
    second, and one without a credit balance reads [0] in the sixth. *)
Theorem export_absent_fields (before : list user) (u : user) (after : list user) :
  (name u = None ->
   exists rest,
     exportUsersToCSV (before ++ u :: after)
     = exportUsersToCSV before ++ 10%N :: lit "N/A," ++ rest) /\
  (email u = None ->
   exists rest,
     exportUsersToCSV (before ++ u :: after)
     = exportUsersToCSV before ++ 10%N :: shown (name u) ++ lit ",N/A," ++ rest) /\
  (credits u = None ->
   exists rest,
     exportUsersToCSV (before ++ u :: after)
     = exportUsersToCSV before
       ++ 10%N :: shown (name u) ++ lit "," ++ shown (email u) ++ lit ","
       ++ momentFormat (created_at u) ++ lit ","
       ++ of_Z (interviewCount u) ++ lit "," ++ of_Z (candidateCount u)
       ++ lit ",0," ++ getStatusText u ++ rest).
Proof.
  rewrite export_split. unfold line. split; [|split].
  - intros ->. cbn [shown]. eexists. cbn [lit app]. reflexivity.
  - intros ->. cbn [shown]. eexists. rewrite <- !app_assoc. cbn [lit app]. reflexivity.
  - intros ->. cbn [balance]. eexists. rewrite <- !app_assoc. cbn [lit app]. reflexivity.
Qed.

End ExportFacts.

(** Witness of C7: alice's name opens her line of the exported text. *)
Lemma export_format_witness :
  exists rest,
    exportUsersToCSV (E := Examples.engine) ([] ++ Examples.alice :: [Examples.bob])
    = exportUsersToCSV (E := Examples.engine) [] ++ 10%N :: lit "Alice" ++ lit "," ++ rest.
Proof.
  apply (proj1 (proj2 (export_format (E := Examples.engine)))
           [] Examples.alice [Examples.bob]).
  reflexivity.
Defined.

(** Witness of C10: carol, after alice, has no name. *)
Lemma export_absent_fields_witness :
  exists rest,
    exportUsersToCSV (E := Examples.engine) ([Examples.alice] ++ Examples.carol :: [])
    = exportUsersToCSV (E := Examples.engine) [Examples.alice]
      ++ 10%N :: lit "N/A," ++ rest.
Proof.
  apply (proj1 (export_absent_fields (E := Examples.engine)
                  [Examples.alice] Examples.carol [])).
  reflexivity.
Defined.

(** ** Rating calculator *)

Lemma fold_left_Qplus (values : list Q) (a : Q) :
  (fold_left Qplus values a == a + total values)%Q.
Proof.
  revert a. induction values as [|x values IH]; intros a; simpl.
  - ring.
  - rewrite IH. ring.
Qed.

Lemma sum_total (values : list Q) : (sum values == total values)%Q.
Proof. unfold sum. rewrite fold_left_Qplus. ring. Qed.

Lemma values_numeric_entries (candidate : option json) :
  (if falsy (rating_of candidate) then [] else values_of (rating_of candidate))
  = numeric_entries candidate.
Proof.
  unfold rating_of, numeric_entries.
  destruct candidate as [[| | | | |c]|]; try reflexivity. simpl.
  destruct (member (lit "conversation_transcript") c) as [[| | | | |t]|];
    try reflexivity. simpl.
  destruct (member (lit "feedback") t) as [[| | | | |f]|]; try reflexivity. simpl.
  destruct (member (lit "rating") f) as [[|b|q|s| |]|]; try reflexivity; simpl.
  - destruct b; reflexivity.
  - destruct (Qeq_bool q 0); reflexivity.
  - destruct s as [|c0 s]; [reflexivity|]. simpl.
    induction s as [|c1 s IH]; [reflexivity | exact IH].
Qed.

Lemma calculateRating_entries (candidate : option json) :
  calculateRating candidate =
  match numeric_entries candidate with
  | [] => lit "N/A"
  | _ :: _ => of_Z (average_of (numeric_entries candidate)) ++ lit "/10"
  end.
Proof.
  rewrite <- values_numeric_entries. unfold calculateRating.
  destruct (falsy (rating_of candidate)); reflexivity.
Qed.

(** The rating [{a: 4, b: 8, c: null}] of the specification, and a
    candidate without a rating. *)
Example rating_4_8_null_text :
  calculateRating (Examples.with_rating Examples.rating_4_8_null) = lit "6/10".
Proof. vm_compute. reflexivity. Qed.

Example rating_missing_text : calculateRating None = lit "N/A".
Proof. reflexivity. Qed.

(** C5 as stated fails: the rating [{a: 15}] has a numeric entry and its
    average, 15, is above 10. *)
Lemma rating_above_ten :
  numeric_entries (Examples.with_rating Examples.rating_15) <> [] /\
  calculateRating (Examples.with_rating Examples.rating_15) = lit "15/10" /\
  ~ (0 <= average_of (numeric_entries (Examples.with_rating Examples.rating_15)) <= 10).
Proof.
  split; [vm_compute; discriminate|]. split; [vm_compute; reflexivity|].
  vm_compute. intros [_ H]. apply H. reflexivity.
Qed.

Lemma total_bounds (values : list Q) :
  Forall (fun q => 0 <= q /\ q <= 10)%Q values ->
  (0 <= total values /\
   total values <= 10 * inject_Z (Z.of_nat (length values)))%Q.
Proof.
  induction 1 as [|q values [Hlo Hhi] _ [IHlo IHhi]].
  - change (total []) with 0%Q.
    change (inject_Z (Z.of_nat (length (@nil Q)))) with 0%Q. split; lra.
  - change (total (q :: values)) with (q + total values)%Q.
    change (length (q :: values)) with (S (length values)).
    rewrite Nat2Z.inj_succ. unfold Z.succ. rewrite inject_Z_plus.
    change (inject_Z 1) with 1%Q. split; lra.
Qed.

Lemma Math_round_bounds (x : Q) :
  (0 <= x)%Q -> (x <= 10)%Q -> 0 <= Math_round x <= 10.
Proof.
  intros Hlo Hhi. unfold Math_round. split.
  - change 0 with (Qfloor (1 # 2)). apply Qfloor_resp_le. lra.
  - change 10 with (Qfloor (10 + (1 # 2))). apply Qfloor_resp_le. lra.
Qed.

Lemma average_of_bounds (values : list Q) :
  values <> [] ->
  Forall (fun q => 0 <= q /\ q <= 10)%Q values ->
  0 <= average_of values <= 10.
Proof.
  intros Hne Hall. unfold average_of.
  destruct (total_bounds Hall) as [Hlo Hhi].
  rewrite <- sum_total in Hlo, Hhi.
  assert (Hlen : (0 < inject_Z (Z.of_nat (length values)))%Q).
  { change 0%Q with (inject_Z 0). rewrite <- Zlt_Qlt.
    destruct values; [congruence | simpl length; lia]. }
  apply Math_round_bounds.
  - apply Qle_shift_div_l; [exact Hlen | lra].
  - apply Qle_shift_div_r; [exact Hlen | lra].
Qed.

(** C5, as amended: when the rating mapping has at least one numeric
    entry and every numeric entry lies between 0 and 10, the average the
    calculator prints lies between 0 and 10. *)
Theorem average_bounded (candidate : option json) :
  numeric_entries candidate <> [] ->
  Forall (fun q => 0 <= q /\ q <= 10)%Q (numeric_entries candidate) ->
  exists avg,
    calculateRating candidate = of_Z avg ++ lit "/10" /\ 0 <= avg <= 10.
Proof.
  intros Hne Hall. exists (average_of (numeric_entries candidate)). split.
  - rewrite calculateRating_entries.
    destruct (numeric_entries candidate); [congruence | reflexivity].
  - apply average_of_bounds; assumption.
Qed.

(** Witness of C5: the rating [{a: 4, b: 8, c: null}]. *)
Lemma average_bounded_witness :
  exists avg,
    calculateRating (Examples.with_rating Examples.rating_4_8_null)
    = of_Z avg ++ lit "/10" /\ 0 <= avg <= 10.
Proof.
  apply (average_bounded (Examples.with_rating Examples.rating_4_8_null)).
  - vm_compute. discriminate.
  - vm_compute. repeat constructor; discriminate.
Defined.

(** ** Aggregation pass *)

Section ActionFacts.
Context {E : Engine}.
Variable gw : gateway.

(** When the [try] block throws, the pass leaves the users and the
    visible users as they were, logs the cause and shows one error. *)
Lemma fetchUsers_failure (w : world) (e : thrown) :
  fetch_try gw (sent w) = inl e ->
  users (page (fetchUsers gw w)) = users (page w) /\
  filteredUsers (page (fetchUsers gw w)) = filteredUsers (page w) /\
  loading (page (fetchUsers gw w)) = false /\
  console (fetchUsers gw w) = console w ++ [(lit "Error fetching users:", e)] /\
  toasts (fetchUsers gw w) = toasts w ++ [ToastError (lit "Failed to fetch users")].
Proof.
  intros H. unfold fetchUsers. simpl. rewrite H. simpl. auto.
Qed.

(** On a backend whose count lookup rejects, the pass fails as a whole:
    alice stays as she was shown and one error is notified. *)
Example rejected_lookup_example :
  let before := Examples.world_of [Examples.alice] in
  let after := fetchUsers (E := Examples.engine) Examples.count_rejects before in
  users (page after) = [Examples.alice] /\
  toasts after = [ToastError (lit "Failed to fetch users")].
Proof. split; vm_compute; reflexivity. Qed.

Lemma Promise_all_rejected {A : Type} (ps : list (thrown + A)) (e : thrown) :
  In (inl e) ps -> exists e', Promise_all ps = inl e'.
Proof.
  induction ps as [|[e0|a] ps IH]; simpl; intros Hin.
  - contradiction.
  - eauto.
  - destruct Hin as [Heq|Hin]; [discriminate|].
    destruct (IH Hin) as [e' ->]. eauto.
Qed.

(** A count lookup that rejects makes the [try] block throw. *)
Lemma rejected_lookup_throws (h : list query) (r : response)
    (found_rows : list user_record) (u : user_record) (e : thrown) :
  gw h SelectUsers = Fulfilled r ->
  error r = None ->
  data r = Some found_rows ->
  In u found_rows ->
  gw h (CountInterviews (email u)) = Rejected e ->
  exists e', fetch_try gw h = inl e'.
Proof.
  intros Hsel Herr Hdata Hin Hrej. unfold fetch_try.
  rewrite Hsel, Herr, Hdata.
  apply Promise_all_rejected with (e := e).
  apply in_map_iff. exists u. split; [|exact Hin].
  unfold with_stats. rewrite Hrej. reflexivity.
Qed.

Lemma fetchUsers_channels (w : world) :
  sent (fetchUsers gw w) = sent w /\
  exists logged shown,
    console (fetchUsers gw w) = console w ++ logged /\
    toasts (fetchUsers gw w) = toasts w ++ shown /\
    (shown = [] \/ shown = [ToastError (lit "Failed to fetch users")]).
Proof.
  unfold fetchUsers. simpl.
  destruct (fetch_try gw (sent w)) as [e|us]; simpl.
  - split; [reflexivity|]. eexists _, _. split; [reflexivity|].
    split; [reflexivity|]. right. reflexivity.
  - split; [reflexivity|]. exists [], []. rewrite !app_nil_r. auto.
Qed.

(** ** Cascading delete *)

Lemma log_if_error_channels (label : jsstring) (r : response) (w : world) :
  page (log_if_error label r w) = page w /\
  sent (log_if_error label r w) = sent w /\
  toasts (log_if_error label r w) = toasts w /\
  exists logged,
    console (log_if_error label r w) = console w ++ logged /\
    forall msg, error r = Some msg -> logged = [(label, BackendError msg)].
Proof.
  unfold log_if_error. destruct (error r) as [msg|]; simpl.
  - repeat split. eexists. split; [reflexivity|]. intros ? [= <-]. reflexivity.
  - repeat split. exists []. rewrite app_nil_r. split; [reflexivity|]. discriminate.
Qed.

(** What [deleteUser] comes to once the two dependent deletes have
    answered: the root delete is sent on the world [w2] they leave, and
    the rest depends on how it settles. *)
Lemma deleteUser_answered (userId : Z) (w : world) (r1 r2 : response) :
  let q1 := DeleteInterviews (found userId email (users (page w))) in
  let q2 := DeleteResults (found userId interview_id (users (page w))) in
  let q3 := DeleteUser userId in
  gw (sent w) q1 = Fulfilled r1 ->
  gw (sent w ++ [q1]) q2 = Fulfilled r2 ->
  exists w2 logged1 logged2,
    sent w2 = sent w ++ [q1; q2] /\
    toasts w2 = toasts w /\
    console w2 = (console w ++ logged1) ++ logged2 /\
    (forall msg, error r1 = Some msg ->
       logged1 = [(lit "Error deleting interviews:", BackendError msg)]) /\
    (forall msg, error r2 = Some msg ->
       logged2 = [(lit "Error deleting interview results:", BackendError msg)]) /\
    deleteUser gw userId w
    = match gw (sent w ++ [q1; q2]) q3 with
      | Rejected e => delete_failed e (send q3 w2)
      | Fulfilled r3 =>
          match error r3 with
          | Some msg => delete_failed (BackendError msg) (send q3 w2)
          | None =>
              fetchUsers gw
                (notify (ToastSuccess (lit "User deleted successfully")) (send q3 w2))
          end
      end.
Proof.
  intros q1 q2 q3 H1 H2.
  destruct (log_if_error_channels (lit "Error deleting interviews:") r1 (send q1 w))
    as [Hp1 [Hs1 [Ht1 [logged1 [Hc1 Hl1]]]]].
  set (w1 := log_if_error (lit "Error deleting interviews:") r1 (send q1 w)) in *.
  destruct (log_if_error_channels (lit "Error deleting interview results:") r2 (send q2 w1))
    as [Hp2 [Hs2 [Ht2 [logged2 [Hc2 Hl2]]]]].
  set (w2 := log_if_error (lit "Error deleting interview results:") r2 (send q2 w1)) in *.
  assert (Hsent2 : sent w2 = sent w ++ [q1; q2]).
  { rewrite Hs2. simpl. rewrite Hs1. simpl. rewrite <- app_assoc. reflexivity. }
  exists w2, logged1, logged2.
  split; [exact Hsent2|].
  split; [rewrite Ht2; simpl; rewrite Ht1; reflexivity|].
  split; [rewrite Hc2; simpl; rewrite Hc1; reflexivity|].
  split; [exact Hl1|]. split; [exact Hl2|].
  unfold deleteUser, await. fold q1 q2 q3. rewrite H1. cbv beta iota zeta.
  fold w1. rewrite Hs1. simpl sent at 1. rewrite H2 at 1. cbv beta iota zeta.
  fold w2. rewrite Hsent2. reflexivity.
Qed.

(** A dependent delete that rejects takes [deleteUser] to its [catch]
    block. *)
Lemma deleteUser_rejected (userId : Z) (w : world) (e : thrown) :
  let q1 := DeleteInterviews (found userId email (users (page w))) in
  let q2 := DeleteResults (found userId interview_id (users (page w))) in
  (gw (sent w) q1 = Rejected e ->
   deleteUser gw userId w = delete_failed e (send q1 w)) /\
  (forall r1,
     gw (sent w) q1 = Fulfilled r1 ->
     gw (sent w ++ [q1]) q2 = Rejected e ->
     deleteUser gw userId w
     = delete_failed e
         (send q2 (log_if_error (lit "Error deleting interviews:") r1 (send q1 w)))).
Proof.
  intros q1 q2. split.
  - intros H1. unfold deleteUser, await. fold q1. rewrite H1. reflexivity.
  - intros r1 H1 H2. unfold deleteUser, await. fold q1 q2. rewrite H1.
    cbv beta iota zeta.
    destruct (log_if_error_channels (lit "Error deleting interviews:") r1 (send q1 w))
      as [_ [Hs1 _]].
    rewrite Hs1. simpl sent at 1. rewrite H2 at 1. reflexivity.
Qed.

(** C6, as amended: a dependent delete that answers with an error is
    logged and does not abort the workflow: once the two dependent
    deletes have answered, with or without an error, the root delete is
    sent after them whatever it then does, the errors are on the
    console, and if the root delete answers without an error the action
    reports success and no delete failure.  A dependent delete that
    rejects does abort it: the root delete is not sent and the action
    reports the failure. *)
Theorem delete_survives_dependent_failure (userId : Z) (w : world) :
  let q1 := DeleteInterviews (found userId email (users (page w))) in
  let q2 := DeleteResults (found userId interview_id (users (page w))) in
  let q3 := DeleteUser userId in
  let after := deleteUser gw userId w in
  (forall r1 r2,
     gw (sent w) q1 = Fulfilled r1 ->
     gw (sent w ++ [q1]) q2 = Fulfilled r2 ->
     sent after = sent w ++ [q1; q2; q3] /\
     (forall msg, error r1 = Some msg ->
        In (lit "Error deleting interviews:", BackendError msg) (console after)) /\
     (forall msg, error r2 = Some msg ->
        In (lit "Error deleting interview results:", BackendError msg) (console after)) /\
     (forall r3, gw (sent w ++ [q1; q2]) q3 = Fulfilled r3 -> error r3 = None ->
        exists later,
          toasts after
          = toasts w ++ ToastSuccess (lit "User deleted successfully") :: later /\
          ~ In (ToastError (lit "Failed to delete user")) later)) /\
  ((exists e, gw (sent w) q1 = Rejected e) \/
   (exists r1 e, gw (sent w) q1 = Fulfilled r1 /\ gw (sent w ++ [q1]) q2 = Rejected e) ->
   ~ In q3 (skipn (length (sent w)) (sent after)) /\
   toasts after = toasts w ++ [ToastError (lit "Failed to delete user")]).
Proof.
  intros q1 q2 q3 after. split.
  - intros r1 r2 H1 H2.
    destruct (deleteUser_answered userId w H1 H2)
      as [w2 [logged1 [logged2 [Hs2 [Ht2 [Hc2 [Hl1 [Hl2 Hrun]]]]]]]].
    fold q1 q2 q3 in Hs2, Hrun. fold after in Hrun.
    assert (Hsent : sent after = sent w ++ [q1; q2; q3] /\
                    exists more, console after = console w2 ++ more).
    { rewrite Hrun. destruct (gw (sent w ++ [q1; q2]) q3) as [r3|e].
      - destruct (error r3) as [msg|].
        + simpl. rewrite Hs2, <- app_assoc. split; [reflexivity | eauto].
        + match goal with
          | |- context [fetchUsers gw ?x] =>
              destruct (fetchUsers_channels x) as [Hs [logged [shown [Hc _]]]]
          end.
          rewrite Hs, Hc. simpl. rewrite Hs2, <- app_assoc. split; [reflexivity | eauto].
      - simpl. rewrite Hs2, <- app_assoc. split; [reflexivity | eauto]. }
    destruct Hsent as [Hsent [more Hcons]].
    split; [exact Hsent|]. split; [|split].
    + intros msg Hmsg. rewrite Hcons, Hc2, (Hl1 msg Hmsg).
      apply in_or_app. left. apply in_or_app. left. apply in_or_app. right.
      left. reflexivity.
    + intros msg Hmsg. rewrite Hcons, Hc2, (Hl2 msg Hmsg).
      apply in_or_app. left. apply in_or_app. right. left. reflexivity.
    + intros r3 H3 Hok. rewrite Hrun, H3, Hok.
      match goal with
      | |- context [fetchUsers gw ?x] =>
          destruct (fetchUsers_channels x) as [_ [logged [shown [_ [Ht Hshown]]]]]
      end.
      exists shown. split.
      * rewrite Ht. simpl. rewrite Ht2, <- app_assoc. reflexivity.
      * destruct Hshown as [-> | ->]; simpl; [tauto|].
        intros [H|[]]. discriminate.
  - intros Hrej. subst after.
    destruct Hrej as [[e H1] | [r1 [e [H1 H2]]]].
    + rewrite (proj1 (deleteUser_rejected userId w e) H1). simpl.
      rewrite skipn_app, Nat.sub_diag, skipn_all. simpl. split; [|reflexivity].
      intros [H|[]]; discriminate.
    + rewrite (proj2 (deleteUser_rejected userId w e) r1 H1 H2).
      destruct (log_if_error_channels (lit "Error deleting interviews:") r1 (send q1 w))
        as [_ [Hs1 [Ht1 _]]].
      simpl. fold q1 q2. rewrite Hs1, Ht1. simpl.
      rewrite <- app_assoc, skipn_app, Nat.sub_diag, skipn_all. simpl. split; [|reflexivity].
      intros [H|[H|[]]]; discriminate.
Qed.

End ActionFacts.

(** C6 as stated fails: on a backend where the delete of alice's
    interviews rejects, the dependent step has failed and the root
    delete is never sent; the action reports the failure. *)
Lemma rejected_dependent_delete_aborts :
  ~ (forall (gw : gateway) (userId : Z) (w : world),
       (exists e,
          gw (sent w) (DeleteInterviews (found userId email (users (page w))))
          = Rejected e) ->
       In (DeleteUser userId) (sent (deleteUser (E := Examples.engine) gw userId w))).
Proof.
  intros H.
  specialize (H Scenarios.interviews_delete_rejects 1
                (Examples.world_of [Examples.alice; Examples.bob])).
  assert (Hsent : In (DeleteUser 1)
                    (sent (deleteUser (E := Examples.engine)
                             Scenarios.interviews_delete_rejects 1
                             (Examples.world_of [Examples.alice; Examples.bob]))))
    by (apply H; eexists; reflexivity).
  vm_compute in Hsent. destruct Hsent as [Hsent|[]]. discriminate.
Qed.

(** Witness of C6: deleting alice on a backend that refuses to delete her
    interviews. *)
Lemma delete_survives_dependent_failure_witness :
  sent (deleteUser (E := Examples.engine) Examples.interviews_delete_fails 1
          (Examples.world_of [Examples.alice; Examples.bob]))
  = [DeleteInterviews (Some (lit "alice@x.com")); DeleteResults None; DeleteUser 1] /\
  In (lit "Error deleting interviews:", BackendError (lit "permission denied"))
     (console (deleteUser (E := Examples.engine) Examples.interviews_delete_fails 1
                 (Examples.world_of [Examples.alice; Examples.bob]))) /\
  In (ToastSuccess (lit "User deleted successfully"))
     (toasts (deleteUser (E := Examples.engine) Examples.interviews_delete_fails 1
                (Examples.world_of [Examples.alice; Examples.bob]))).
Proof.
  destruct (proj1 (delete_survives_dependent_failure (E := Examples.engine)
                     Examples.interviews_delete_fails 1
                     (Examples.world_of [Examples.alice; Examples.bob]))
              (Examples.failed (lit "permission denied")) Examples.ok
              eq_refl eq_refl)
    as [Hsent [Hlogged [_ Hroot]]].
  destruct (Hroot Examples.ok eq_refl eq_refl) as [later [Htoasts _]].
  split; [exact Hsent|]. split.
  - apply Hlogged. reflexivity.
  - rewrite Htoasts. apply in_or_app. right. left. reflexivity.
Defined.

(** C2 is not met by the code: on a backend whose interview count fails
    for alice and for bob (the response carries an error and no count),
    the pass still replaces the view, with both users and a count of
    zero interviews each, and neither logs nor shows an error. *)
Theorem failed_count_lookup_goes_unnoticed :
  let before := Examples.world_of [] in
  let after := fetchUsers (E := Examples.engine) Examples.count_fails before in
  (forall u, In u [Examples.alice; Examples.bob] ->
     exists r, Examples.count_fails (sent before) (CountInterviews (email u))
               = Fulfilled r /\ error r <> None /\ count r = None) /\
  users (page after)
  = [Examples.mk 1 (Some (lit "Alice")) (Some (lit "alice@x.com"))
       (Some Examples.march) (Some 5) false 0 1;
     Examples.mk 2 (Some (lit "Bob")) (Some (lit "bob@x.com"))
       (Some Examples.january) (Some 0) true 0 1] /\
  users (page after) <> users (page before) /\
  console after = [] /\
  toasts after = [].
Proof.
  split; [|split; [|split; [|split]]].
  - intros u _. eexists. split; [reflexivity|]. split; [discriminate | reflexivity].
  - vm_compute. reflexivity.
  - vm_compute. discriminate.
  - reflexivity.
  - reflexivity.
Qed.

(** * Further properties *)

(** ** Status colour and summary cards *)

(** X1: the colour class of a user is the one that goes with the status
    label of that user: the two functions never disagree. *)
Theorem status_colour_follows_label (u : user) :
  getStatusColor u = colour_of_label (getStatusText u).
Proof.
  unfold getStatusColor, getStatusText.
  destruct (banned u); [reflexivity|].
  destruct (0 <? interviewCount u); [reflexivity|].
  destruct (truthy (created_at u)); reflexivity.
Qed.

Lemma has_label_Active (u : user) :
  has_label (lit "Active") u = (0 <? interviewCount u) && negb (banned u).
Proof.
  unfold has_label, getStatusText.
  destruct (banned u); [rewrite andb_false_r; reflexivity|].
  destruct (0 <? interviewCount u); [reflexivity|].
  destruct (truthy (created_at u)); reflexivity.
Qed.

Lemma has_label_Banned (u : user) : has_label (lit "Banned") u = banned u.
Proof.
  unfold has_label, getStatusText.
  destruct (banned u); [reflexivity|].
  destruct (0 <? interviewCount u); [reflexivity|].
  destruct (truthy (created_at u)); reflexivity.
Qed.

Lemma filter_disjoint_length {A : Type} (f g : A -> bool) (l : list A) :
  (forall x, f x = true -> g x = false) ->
  (length (filter f l) + length (filter g l) <= length l)%nat.
Proof.
  intros Hfg. induction l as [|x l IH]; simpl; [lia|].
  destruct (f x) eqn:Hf.
  - rewrite (Hfg x Hf). simpl. lia.
  - destruct (g x); simpl; lia.
Qed.

(** X2: the Active Users card counts the users whose status label is
    "Active", the Banned Users card those whose label is "Banned", and
    the two cards together never exceed the Total Users card. *)
Theorem cards_agree_with_labels (us : list user) :
  Cards.activeUsers us = length (filter (has_label (lit "Active")) us) /\
  Cards.bannedUsers us = length (filter (has_label (lit "Banned")) us) /\
  (Cards.activeUsers us + Cards.bannedUsers us <= Cards.totalUsers us)%nat.
Proof.
  unfold Cards.activeUsers, Cards.bannedUsers, Cards.totalUsers.
  split; [|split].
  - f_equal. apply filter_ext. intros u. symmetry. apply has_label_Active.
  - f_equal. apply filter_ext. intros u. symmetry. apply has_label_Banned.
  - apply filter_disjoint_length. intros u Hu.
    apply andb_true_iff in Hu. destruct Hu as [_ Hu].
    apply negb_true_iff in Hu. exact Hu.
Qed.

Lemma fold_left_counts (f : user -> Z) (us : list user) (a : Z) :
  fold_left (fun sum u => sum + f u) us a
  = a + fold_right (fun u sum => f u + sum) 0 us.
Proof.
  revert a. induction us as [|u us IH]; intros a; simpl; [lia|].
  rewrite IH. lia.
Qed.

Lemma totalInterviews_cons (u : user) (us : list user) :
  Cards.totalInterviews (u :: us) = interviewCount u + Cards.totalInterviews us.
Proof.
  unfold Cards.totalInterviews. simpl. rewrite !fold_left_counts. lia.
Qed.

(** X3: when no interview count is negative, the Total Interviews card is
    at least the Active Users card, and it shows zero exactly when no
    user has an interview. *)
Theorem total_interviews_covers_active (us : list user) :
  Forall (fun u : user => 0 <= interviewCount u) us ->
  Z.of_nat (Cards.activeUsers us) <= Cards.totalInterviews us /\
  (Cards.totalInterviews us = 0 <->
   Forall (fun u : user => interviewCount u = 0) us).
Proof.
  induction 1 as [|u us Hu Hall [IHle IHzero]].
  - split; [reflexivity|]. split; [constructor | reflexivity].
  - rewrite totalInterviews_cons. split.
    + unfold Cards.activeUsers in *. simpl.
      destruct (Z.ltb_spec 0 (interviewCount u)); destruct (banned u); simpl;
        try rewrite Nat2Z.inj_succ; lia.
    + assert (Hnonneg : 0 <= Cards.totalInterviews us).
      { unfold Cards.activeUsers in IHle. lia. }
      split.
      * intros Hsum. constructor; [lia|]. apply IHzero. lia.
      * intros Hz. inversion Hz as [|? ? Hu0 Hrest]; subst.
        apply IHzero in Hrest. lia.
Qed.

(** Witness of X3: alice and bob. *)
Lemma total_interviews_covers_active_witness :
  Z.of_nat (Cards.activeUsers [Examples.alice; Examples.bob])
  <= Cards.totalInterviews [Examples.alice; Examples.bob].
Proof.
  apply (total_interviews_covers_active (us := [Examples.alice; Examples.bob])).
  repeat constructor; vm_compute; discriminate.
Defined.

(** ** More on the filter/sort engine *)

Section MoreFilterSort.
Context {E : Engine}.

Lemma js_lt_irrefl (x : value) : js_lt x x = false.
Proof.
  destruct (js_lt x x) eqn:H; [|reflexivity].
  rewrite (js_lt_asym _ _ H) in H. discriminate.
Qed.

(** X4: the sort comparator never answers 0: it answers 1 or -1, it
    answers -1 for a record against itself (and so for equal keys in
    both directions), and it never answers 1 in both directions. *)
Theorem comparator_never_zero (by_ : sort_key) (order : sort_order) (a b : user) :
  (comparator by_ order a b = 1 \/ comparator by_ order a b = -1) /\
  comparator by_ order a a = -1 /\
  (comparator by_ order a b = 1 -> comparator by_ order b a = -1).
Proof.
  unfold comparator, js_gt. destruct order.
  - split; [|split].
    + destruct (js_lt (sort_value by_ b) (sort_value by_ a)); auto.
    + rewrite js_lt_irrefl. reflexivity.
    + destruct (js_lt (sort_value by_ b) (sort_value by_ a)) eqn:H; [|discriminate].
      rewrite (js_lt_asym _ _ H). reflexivity.
  - split; [|split].
    + destruct (js_lt (sort_value by_ a) (sort_value by_ b)); auto.
    + rewrite js_lt_irrefl. reflexivity.
    + destruct (js_lt (sort_value by_ a) (sort_value by_ b)) eqn:H; [|discriminate].
      rewrite (js_lt_asym _ _ H). reflexivity.
Qed.

(** X5: a record with neither a name nor an email is never visible,
    whatever the search term (the empty one included), the sort and the
    include-banned flag. *)
Theorem nameless_record_is_hidden us term by_ order show (u : user) :
  name u = None -> email u = None ->
  ~ In u (filterAndSortUsers us term by_ order show).
Proof.
  intros Hname Hemail Hin. apply In_filterAndSortUsers in Hin.
  destruct Hin as [_ Hkeep].
  unfold keeps, matchesSearch in Hkeep. rewrite Hname, Hemail in Hkeep.
  discriminate.
Qed.

(** X6: sorted on the interview count, the whole visible list is in
    order, not only neighbours: ascending, no record has more interviews
    than one after it; descending, none has fewer. *)
Theorem sorted_by_interview_count us term order show :
  StronglySorted
    (fun a b : user =>
       match order with
       | asc => interviewCount a <= interviewCount b
       | desc => interviewCount b <= interviewCount a
       end)
    (filterAndSortUsers us term interviewCount_key order show).
Proof.
  apply Sorted_StronglySorted.
  - intros a b c. destruct order; lia.
  - apply sort_sorted with (Compare := comparator interviewCount_key order).
    + intros a b. unfold comparator, js_gt. simpl. rewrite !Qltb_inject_Z.
      destruct order.
      * destruct (Z.ltb_spec (interviewCount b) (interviewCount a)); lia.
      * destruct (Z.ltb_spec (interviewCount a) (interviewCount b)); lia.
    + intros a b. unfold comparator, js_gt. simpl. rewrite !Qltb_inject_Z.
      destruct order.
      * destruct (Z.ltb_spec (interviewCount b) (interviewCount a)); lia.
      * destruct (Z.ltb_spec (interviewCount a) (interviewCount b)); lia.
Qed.

End MoreFilterSort.

(** Witness of X5: nobody, among alice and bob, with an empty term. *)
Lemma nameless_record_is_hidden_witness :
  ~ In Scenarios.nobody
      (filterAndSortUsers (E := Examples.engine)
         [Examples.alice; Scenarios.nobody; Examples.bob] [] created_at_key desc true).
Proof.
  apply (nameless_record_is_hidden (E := Examples.engine)); reflexivity.
Defined.

(** ** More on the aggregation pass *)

Section MoreActions.
Context {E : Engine}.
Variable gw : gateway.

Lemma Promise_all_fulfilled {A B : Type} (f : A -> thrown + B) (l : list A) :
  (forall a, In a l -> exists b, f a = inr b) ->
  exists bs, Promise_all (List.map f l) = inr bs /\
             Forall2 (fun a b => f a = inr b) l bs.
Proof.
  induction l as [|a l IH]; intros Hall; simpl.
  - exists []. split; [reflexivity | constructor].
  - destruct (Hall a (or_introl eq_refl)) as [b Hb].
    destruct IH as [bs [Hbs Hrel]]; [intros x Hx; apply Hall; right; exact Hx|].
    rewrite Hb, Hbs. exists (b :: bs). split; [reflexivity|].
    constructor; assumption.
Qed.

Lemma fetchUsers_success (w : world) (us : list user) :
  fetch_try gw (sent w) = inr us ->
  users (page (fetchUsers gw w)) = us /\
  synced (page (fetchUsers gw w)) /\
  query_of (page (fetchUsers gw w)) = query_of (page w) /\
  loading (page (fetchUsers gw w)) = false /\
  sent (fetchUsers gw w) = sent w /\
  console (fetchUsers gw w) = console w /\
  toasts (fetchUsers gw w) = toasts w.
Proof.
  intros H. unfold fetchUsers. simpl. rewrite H. simpl.
  repeat split.
Qed.

(** X7: when the users query and every count lookup answer, the pass
    shows exactly the rows of the users query, in their order, each with
    the two counts of its lookups (an absent count as 0); it clears the
    loading flag and neither logs nor notifies anything. *)
Theorem fetch_shows_every_row (w : world) (r : response) (found_rows : list user_record) :
  gw (sent w) SelectUsers = Fulfilled r ->
  error r = None ->
  data r = Some found_rows ->
  (forall u, In u found_rows ->
     exists r1 r2,
       gw (sent w) (CountInterviews (email u)) = Fulfilled r1 /\
       gw (sent w) (CountResults (interview_id u)) = Fulfilled r2) ->
  Forall2
    (fun (row : user_record) (u : user) =>
       record u = row /\
       exists r1 r2,
         gw (sent w) (CountInterviews (email row)) = Fulfilled r1 /\
         gw (sent w) (CountResults (interview_id row)) = Fulfilled r2 /\
         interviewCount u = or_0 (count r1) /\
         candidateCount u = or_0 (count r2))
    found_rows (users (page (fetchUsers gw w))) /\
  loading (page (fetchUsers gw w)) = false /\
  console (fetchUsers gw w) = console w /\
  toasts (fetchUsers gw w) = toasts w.
Proof.
  intros Hsel Herr Hdata Hall.
  destruct (Promise_all_fulfilled (with_stats gw (sent w)) found_rows)
    as [us [Hus Hrel]].
  { intros u Hu. destruct (Hall u Hu) as [r1 [r2 [H1 H2]]].
    unfold with_stats. rewrite H1, H2. eauto. }
  assert (Htry : fetch_try gw (sent w) = inr us).
  { unfold fetch_try. rewrite Hsel, Herr, Hdata. exact Hus. }
  destruct (fetchUsers_success w Htry) as [Husers [_ [_ [Hload [_ [Hcons Htoast]]]]]].
  rewrite Husers. repeat split; try assumption.
  clear - Hrel. induction Hrel as [|row u rows us Hrow _ IH]; constructor; [|exact IH].
  unfold with_stats in Hrow.
  destruct (gw (sent w) (CountInterviews (email row))) as [r1|]; [|discriminate].
  destruct (gw (sent w) (CountResults (interview_id row))) as [r2|]; [|discriminate].
  injection Hrow as <-. split; [reflexivity|].
  exists r1, r2. repeat split.
Qed.

Lemma Promise_all_rows (h : list query) (rows : list user_record) :
  forall us : list user,
    Promise_all (List.map (with_stats gw h) rows) = inr us ->
    List.map (fun u : user => record u) us = rows.
Proof.
  induction rows as [|row rows IH]; intros us H; simpl in H.
  - injection H as <-. reflexivity.
  - unfold with_stats in H at 1.
    destruct (gw h (CountInterviews (email row))) as [r1|]; [|discriminate].
    destruct (gw h (CountResults (interview_id row))) as [r2|]; [|discriminate].
    destruct (Promise_all (List.map (with_stats gw h) rows)) as [|rest]; [discriminate|].
    injection H as <-. simpl. rewrite (IH rest eq_refl). reflexivity.
Qed.

Lemma fetch_try_rows (h : list query) (us : list user) :
  fetch_try gw h = inr us ->
  exists r rows,
    gw h SelectUsers = Fulfilled r /\ error r = None /\ data r = Some rows /\
    List.map (fun u : user => record u) us = rows.
Proof.
  unfold fetch_try. destruct (gw h SelectUsers) as [r|]; [|discriminate].
  destruct (error r) as [msg|] eqn:Herr; [discriminate|].
  destruct (data r) as [rows|] eqn:Hdata; [|discriminate].
  intros H. exists r, rows. repeat split; try assumption.
  apply (Promise_all_rows _ _ H).
Qed.

(** X8: a pass is all or nothing: either it replaces the view (the users
    become the rows the users query answered, one enriched record per
    row and in their order, and the visible users are what the
    filter/sort engine gives on them) and stays silent, or it keeps the
    users and the visible users as they were, logs one error and shows
    the one notification "Failed to fetch users"; either way the loading
    flag ends cleared and the query cells are untouched. *)
Theorem fetch_all_or_nothing (w : world) :
  loading (page (fetchUsers gw w)) = false /\
  query_of (page (fetchUsers gw w)) = query_of (page w) /\
  ((exists r rows,
      gw (sent w) SelectUsers = Fulfilled r /\ error r = None /\ data r = Some rows /\
      List.map (fun u : user => record u) (users (page (fetchUsers gw w))) = rows /\
      filteredUsers (page (fetchUsers gw w))
      = filterAndSortUsers (users (page (fetchUsers gw w))) (searchTerm (page w))
          (sortBy (page w)) (sortOrder (page w)) (showBanned (page w)) /\
      console (fetchUsers gw w) = console w /\ toasts (fetchUsers gw w) = toasts w) \/
   (users (page (fetchUsers gw w)) = users (page w) /\
    filteredUsers (page (fetchUsers gw w)) = filteredUsers (page w) /\
    (exists e, console (fetchUsers gw w)
               = console w ++ [(lit "Error fetching users:", e)]) /\
    toasts (fetchUsers gw w) = toasts w ++ [ToastError (lit "Failed to fetch users")])).
Proof.
  destruct (fetch_try gw (sent w)) as [e|us] eqn:Htry.
  - destruct (fetchUsers_failure gw w Htry) as [Hu [Hf [Hl [Hc Ht]]]].
    split; [exact Hl|]. split.
    + unfold fetchUsers. simpl. rewrite Htry. reflexivity.
    + right. repeat split; try assumption. exists e. exact Hc.
  - destruct (fetchUsers_success w Htry) as [Hus [_ [Hq [Hl [_ [Hc Ht]]]]]].
    destruct (fetch_try_rows _ Htry) as [r [rows [Hsel [Herr [Hdata Hrows]]]]].
    split; [exact Hl|]. split; [exact Hq|]. left.
    exists r, rows. rewrite Hus. repeat split; try assumption.
    unfold fetchUsers. simpl. rewrite Htry. reflexivity.
Qed.

(** X9: when the users query itself fails (it rejects, it answers with
    an error, or it answers without data), the view is kept and the
    failure is notified once. *)
Theorem fetch_list_failure (w : world) :
  match gw (sent w) SelectUsers with
  | Rejected _ => True
  | Fulfilled r => error r <> None \/ data r = None
  end ->
  users (page (fetchUsers gw w)) = users (page w) /\
  filteredUsers (page (fetchUsers gw w)) = filteredUsers (page w) /\
  toasts (fetchUsers gw w) = toasts w ++ [ToastError (lit "Failed to fetch users")].
Proof.
  intros Hfail.
  assert (Htry : exists e, fetch_try gw (sent w) = inl e).
  { unfold fetch_try. destruct (gw (sent w) SelectUsers) as [r|e]; [|eauto].
    destruct (error r) as [msg|]; [eauto|].
    destruct Hfail as [Hfail|Hfail]; [congruence|]. rewrite Hfail. eauto. }
  destruct Htry as [e Htry].
  destruct (fetchUsers_failure gw w Htry) as [Hu [Hf [_ [_ Ht]]]].
  auto.
Qed.

Lemma fetchUsers_keeps_query (w : world) :
  query_of (page (fetchUsers gw w)) = query_of (page w).
Proof.
  unfold fetchUsers. simpl. destruct (fetch_try gw (sent w)); reflexivity.
Qed.

Lemma fetchUsers_keeps_sync (w : world) :
  synced (page w) -> synced (page (fetchUsers gw w)).
Proof.
  intros Hsync. destruct (fetch_try gw (sent w)) as [e|us] eqn:Htry.
  - unfold fetchUsers. simpl. rewrite Htry. exact Hsync.
  - apply (fetchUsers_success w Htry).
Qed.

End MoreActions.

(** Witness of X7: the steady backend. *)
Lemma fetch_shows_every_row_witness :
  List.map (fun u : user => (id u, interviewCount u, candidateCount u))
    (users (page (fetchUsers (E := Examples.engine) Scenarios.steady
                    (Examples.world_of []))))
  = [(1, 3, 0); (2, 3, 0)] /\
  toasts (fetchUsers (E := Examples.engine) Scenarios.steady (Examples.world_of [])) = [].
Proof.
  destruct (fetch_shows_every_row (E := Examples.engine) Scenarios.steady
              (Examples.world_of [])
              (r := Examples.rows [record Examples.alice; record Examples.bob])
              eq_refl eq_refl eq_refl) as [_ [_ [_ Htoasts]]].
  - intros u _. exists (Examples.counted 3), (Examples.counted 0).
    split; reflexivity.
  - split; [vm_compute; reflexivity | exact Htoasts].
Defined.

(** Witness of X9: a backend whose users query is refused. *)
Lemma fetch_list_failure_witness :
  users (page (fetchUsers (E := Examples.engine)
                 (fun _ _ => Fulfilled (Examples.failed (lit "permission denied")))
                 (Examples.world_of [Examples.alice])))
  = [Examples.alice].
Proof.
  apply (fetch_list_failure (E := Examples.engine)
           (fun _ _ => Fulfilled (Examples.failed (lit "permission denied")))
           (Examples.world_of [Examples.alice])).
  left. discriminate.
Defined.

(** ** More on the cascading delete and the ban action *)

Section MoreModeration.
Context {E : Engine}.
Variable gw : gateway.

(** The ways [deleteUser] ends: in its [catch] block after one, two or
    three deletes, or in the refresh after the three of them. *)
Lemma deleteUser_cases (userId : Z) (w : world) :
  let q1 := DeleteInterviews (found userId email (users (page w))) in
  let q2 := DeleteResults (found userId interview_id (users (page w))) in
  let q3 := DeleteUser userId in
  (exists e wf logged,
     deleteUser gw userId w = delete_failed e wf /\
     page wf = page w /\ toasts wf = toasts w /\
     console wf = console w ++ logged /\
     ((sent wf = sent w ++ [q1] /\ gw (sent w) q1 = Rejected e) \/
      (sent wf = sent w ++ [q1; q2] /\
       exists r1, gw (sent w) q1 = Fulfilled r1 /\
                  gw (sent w ++ [q1]) q2 = Rejected e) \/
      (sent wf = sent w ++ [q1; q2; q3] /\
       exists r1 r2,
         gw (sent w) q1 = Fulfilled r1 /\
         gw (sent w ++ [q1]) q2 = Fulfilled r2 /\
         (gw (sent w ++ [q1; q2]) q3 = Rejected e \/
          exists r msg, gw (sent w ++ [q1; q2]) q3 = Fulfilled r /\
                        error r = Some msg /\ e = BackendError msg)))) \/
  (exists ws r1 r2 r3,
     deleteUser gw userId w = fetchUsers gw ws /\
     page ws = page w /\
     toasts ws = toasts w ++ [ToastSuccess (lit "User deleted successfully")] /\
     sent ws = sent w ++ [q1; q2; q3] /\
     gw (sent w) q1 = Fulfilled r1 /\
     gw (sent w ++ [q1]) q2 = Fulfilled r2 /\
     gw (sent w ++ [q1; q2]) q3 = Fulfilled r3 /\ error r3 = None).
Proof.
  intros q1 q2 q3. unfold deleteUser, await. fold q1 q2 q3. cbv beta iota zeta.
  destruct (gw (sent w) q1) as [r1|e1] eqn:H1.
  2:{ left. exists e1, (send q1 w), []. rewrite app_nil_r. auto 10. }
  destruct (log_if_error_channels (lit "Error deleting interviews:") r1 (send q1 w))
    as [Hp1 [Hs1 [Ht1 [logged1 [Hc1 _]]]]].
  set (w1 := log_if_error (lit "Error deleting interviews:") r1 (send q1 w)) in *.
  simpl in Hp1, Hs1, Ht1, Hc1. rewrite Hs1.
  destruct (gw (sent w ++ [q1]) q2) as [r2|e2] eqn:H2.
  2:{ left. exists e2, (send q2 w1), logged1. simpl.
      rewrite Hp1, Hs1, Ht1, Hc1, <- app_assoc.
      repeat split. right. left. split; [reflexivity|]. eauto. }
  destruct (log_if_error_channels (lit "Error deleting interview results:") r2 (send q2 w1))
    as [Hp2 [Hs2 [Ht2 [logged2 [Hc2 _]]]]].
  set (w2 := log_if_error (lit "Error deleting interview results:") r2 (send q2 w1)) in *.
  simpl in Hp2, Hs2, Ht2, Hc2.
  rewrite Hp1 in Hp2. rewrite Hs1, <- app_assoc in Hs2. rewrite Ht1 in Ht2.
  rewrite Hc1, <- app_assoc in Hc2. simpl in Hs2. rewrite Hs2.
  destruct (gw (sent w ++ [q1; q2]) q3) as [r3|e3] eqn:H3.
  2:{ left. exists e3, (send q3 w2), (logged1 ++ logged2). simpl.
      rewrite Hp2, Hs2, Ht2, Hc2, <- app_assoc. simpl.
      repeat split. right. right. split; [reflexivity|]. exists r1, r2. auto. }
  destruct (error r3) as [msg|] eqn:Herr.
  - left. exists (BackendError msg), (send q3 w2), (logged1 ++ logged2). simpl.
    rewrite Hp2, Hs2, Ht2, Hc2, <- app_assoc. simpl.
    repeat split. right. right. split; [reflexivity|].
    exists r1, r2. repeat split. right. eauto.
  - right.
    exists (notify (ToastSuccess (lit "User deleted successfully")) (send q3 w2)),
      r1, r2, r3.
    simpl. rewrite Hp2, Hs2, Ht2, <- app_assoc. simpl. auto 10.
Qed.

(** X10: a delete ends with exactly one verdict: either the single
    notification "Failed to delete user", with the page left as it was,
    or the notification "User deleted successfully" followed by what the
    refresh shows, which is never a delete failure. *)
Theorem delete_gives_one_verdict (userId : Z) (w : world) :
  (page (deleteUser gw userId w) = page w /\
   toasts (deleteUser gw userId w)
   = toasts w ++ [ToastError (lit "Failed to delete user")]) \/
  (exists later,
     toasts (deleteUser gw userId w)
     = toasts w ++ ToastSuccess (lit "User deleted successfully") :: later /\
     (later = [] \/ later = [ToastError (lit "Failed to fetch users")])).
Proof.
  destruct (deleteUser_cases userId w)
    as [[e [wf [logged [Hrun [Hp [Ht _]]]]]] | [ws [r1 [r2 [r3 [Hrun [Hp [Ht _]]]]]]]].
  - left. rewrite Hrun. simpl. rewrite Hp, Ht. auto.
  - right. rewrite Hrun.
    destruct (fetchUsers_channels gw ws) as [_ [logged [shown [_ [Hshown Hcases]]]]].
    exists shown. rewrite Hshown, Ht, <- app_assoc. auto.
Qed.

(** X11: when the two dependent deletes answer and the root delete is
    refused (it rejects or answers with an error), the dependent deletes
    have been sent all the same, the action reports "Failed to delete
    user" and the page is not refreshed. *)
Theorem root_failure_after_dependents (userId : Z) (w : world) (r1 r2 : response) :
  let q1 := DeleteInterviews (found userId email (users (page w))) in
  let q2 := DeleteResults (found userId interview_id (users (page w))) in
  let q3 := DeleteUser userId in
  gw (sent w) q1 = Fulfilled r1 ->
  gw (sent w ++ [q1]) q2 = Fulfilled r2 ->
  match gw (sent w ++ [q1; q2]) q3 with
  | Rejected _ => True
  | Fulfilled r3 => error r3 <> None
  end ->
  sent (deleteUser gw userId w) = sent w ++ [q1; q2; q3] /\
  page (deleteUser gw userId w) = page w /\
  toasts (deleteUser gw userId w)
  = toasts w ++ [ToastError (lit "Failed to delete user")].
Proof.
  intros q1 q2 q3 H1 H2 H3. subst q1 q2 q3.
  destruct (deleteUser_cases userId w)
    as [[e [wf [logged [Hrun [Hp [Ht [_ Hsent]]]]]]]
       | [ws [x1 [x2 [x3 [_ [_ [_ [_ [_ [_ [Hr Herr]]]]]]]]]]]].
  - rewrite Hrun. simpl. rewrite Hp, Ht.
    destruct Hsent as [[_ Hrej] | [[_ [x1 [_ Hrej]]] | [Hsent _]]]; try congruence.
    rewrite Hsent. auto.
  - rewrite Hr in H3. contradiction.
Qed.

(** X12: a dependent delete that rejects (instead of answering with an
    error) stops the workflow: the root delete is never sent and the
    action reports "Failed to delete user". *)
Theorem rejected_dependent_stops_delete (userId : Z) (w : world) :
  let q1 := DeleteInterviews (found userId email (users (page w))) in
  let q2 := DeleteResults (found userId interview_id (users (page w))) in
  ((exists e, gw (sent w) q1 = Rejected e) \/
   (exists r1 e, gw (sent w) q1 = Fulfilled r1 /\
                 gw (sent w ++ [q1]) q2 = Rejected e)) ->
  (sent (deleteUser gw userId w) = sent w ++ [q1] \/
   sent (deleteUser gw userId w) = sent w ++ [q1; q2]) /\
  toasts (deleteUser gw userId w)
  = toasts w ++ [ToastError (lit "Failed to delete user")].
Proof.
  intros q1 q2 Hrej. subst q1 q2.
  destruct (deleteUser_cases userId w)
    as [[e [wf [logged [Hrun [Hp [Ht [_ Hsent]]]]]]]
       | [ws [x1 [x2 [x3 [_ [_ [_ [_ [Hx1 [Hx2 _]]]]]]]]]]].
  - rewrite Hrun. simpl. rewrite Ht. split; [|reflexivity].
    destruct Hsent as [[Hsent _] | [[Hsent _] | [_ [x1 [x2 [Hx1 [Hx2 _]]]]]]]; auto.
    exfalso. destruct Hrej as [[e1 H1] | [r1 [e2 [H1 H2]]]]; congruence.
  - exfalso. destruct Hrej as [[e1 H1] | [r1 [e2 [H1 H2]]]]; congruence.
Qed.

(** X13: deleting an identifier that no listed user has still sends the
    deletes, the two dependent ones without a value to match. *)
Theorem delete_of_unknown_id (userId : Z) (w : world) :
  (forall u : user, In u (users (page w)) -> id u <> userId) ->
  exists rest,
    sent (deleteUser gw userId w) = sent w ++ DeleteInterviews None :: rest /\
    (rest = [] \/ rest = [DeleteResults None] \/
     rest = [DeleteResults None; DeleteUser userId]).
Proof.
  intros Hnone.
  assert (Hfound : forall field, found userId field (users (page w)) = None).
  { intros field. unfold found.
    destruct (find (fun u : user => id u =? userId) (users (page w))) as [u|] eqn:Hfind;
      [|reflexivity].
    apply find_some in Hfind. destruct Hfind as [Hin Heq].
    apply Z.eqb_eq in Heq. exfalso. exact (Hnone u Hin Heq). }
  destruct (deleteUser_cases userId w)
    as [[e [wf [logged [Hrun [_ [_ [_ Hsent]]]]]]]
       | [ws [x1 [x2 [x3 [Hrun [_ [_ [Hsent _]]]]]]]]];
    rewrite !Hfound in *; rewrite Hrun.
  - change (sent (delete_failed e wf)) with (sent wf).
    destruct Hsent as [[-> _] | [[-> _] | [-> _]]]; eexists; split;
      try reflexivity; auto.
  - rewrite (proj1 (fetchUsers_channels gw ws)), Hsent.
    eexists; split; [reflexivity | auto].
Qed.

Lemma deleteUser_page (userId : Z) (w : world) :
  page (deleteUser gw userId w) = page w \/
  exists ws, page ws = page w /\
             page (deleteUser gw userId w) = page (fetchUsers gw ws).
Proof.
  destruct (deleteUser_cases userId w)
    as [[e [wf [logged [Hrun [Hp _]]]]] | [ws [x1 [x2 [x3 [Hrun [Hp _]]]]]]].
  - left. rewrite Hrun. exact Hp.
  - right. exists ws. rewrite Hrun. auto.
Qed.

Section BanFacts.
Variable update : updater.

(** X14: a ban or unban whose update answers without an error notifies
    "User banned successfully" or "User unbanned successfully" according
    to the new status, and then refreshes: what it leaves is what the
    aggregation pass leaves when run after the notification; one whose
    update rejects or answers with an error leaves the page as it was
    and notifies "Failed to update user status" only. *)
Theorem ban_outcome (userId : Z) (banStatus : bool) (w : world) :
  (forall r, update (sent w) userId banStatus = Fulfilled r -> error r = None ->
     banUser update gw userId banStatus w
     = fetchUsers gw
         (notify (ToastSuccess (if banStatus then lit "User banned successfully"
                                else lit "User unbanned successfully")) w) /\
     exists later,
       toasts (banUser update gw userId banStatus w)
       = toasts w
         ++ ToastSuccess (if banStatus then lit "User banned successfully"
                          else lit "User unbanned successfully") :: later /\
       (later = [] \/ later = [ToastError (lit "Failed to fetch users")])) /\
  (match update (sent w) userId banStatus with
   | Rejected _ => True
   | Fulfilled r => error r <> None
   end ->
   page (banUser update gw userId banStatus w) = page w /\
   toasts (banUser update gw userId banStatus w)
   = toasts w ++ [ToastError (lit "Failed to update user status")]).
Proof.
  unfold banUser. split.
  - intros r Hr Herr. rewrite Hr, Herr. split; [reflexivity|].
    match goal with
    | |- context [fetchUsers gw ?x] =>
        destruct (fetchUsers_channels gw x) as [_ [logged [shown [_ [Hshown Hcases]]]]]
    end.
    exists shown. rewrite Hshown. simpl. rewrite <- app_assoc. auto.
  - destruct (update (sent w) userId banStatus) as [r|e].
    + destruct (error r) as [msg|]; [auto | congruence].
    + auto.
Qed.

(** X15: none of the three actions touches what the user typed and
    chose (search term, sort key, direction, include-banned flag), and
    each leaves the visible users in step with the users: if they were
    what the filter/sort engine gives before, they are afterwards. *)
Theorem actions_keep_query_and_sync (userId : Z) (banStatus : bool) (w : world) :
  (query_of (page (fetchUsers gw w)) = query_of (page w) /\
   query_of (page (deleteUser gw userId w)) = query_of (page w) /\
   query_of (page (banUser update gw userId banStatus w)) = query_of (page w)) /\
  (synced (page w) ->
   synced (page (fetchUsers gw w)) /\
   synced (page (deleteUser gw userId w)) /\
   synced (page (banUser update gw userId banStatus w))).
Proof.
  assert (Hq : forall x, query_of (page (fetchUsers gw x)) = query_of (page x))
    by (intros x; apply fetchUsers_keeps_query).
  assert (Hban : page (banUser update gw userId banStatus w) = page w \/
                 exists ws, page ws = page w /\
                            page (banUser update gw userId banStatus w)
                            = page (fetchUsers gw ws)).
  { unfold banUser. destruct (update (sent w) userId banStatus) as [r|e]; [|auto].
    destruct (error r); [auto|]. right. eexists. split; [|reflexivity]. reflexivity. }
  split.
  - split; [apply Hq|]. split.
    + destruct (deleteUser_page userId w) as [-> | [ws [Hp ->]]]; [reflexivity|].
      rewrite Hq, Hp. reflexivity.
    + destruct Hban as [-> | [ws [Hp ->]]]; [reflexivity|].
      rewrite Hq, Hp. reflexivity.
  - intros Hsync. split; [apply fetchUsers_keeps_sync; exact Hsync|]. split.
    + destruct (deleteUser_page userId w) as [-> | [ws [Hp ->]]]; [exact Hsync|].
      apply fetchUsers_keeps_sync. rewrite Hp. exact Hsync.
    + destruct Hban as [-> | [ws [Hp ->]]]; [exact Hsync|].
      apply fetchUsers_keeps_sync. rewrite Hp. exact Hsync.
Qed.

End BanFacts.

End MoreModeration.

(** Witness of X11: the root delete of alice is refused. *)
Lemma root_failure_after_dependents_witness :
  sent (deleteUser (E := Examples.engine) Scenarios.root_delete_fails 1
          (Examples.world_of [Examples.alice; Examples.bob]))
  = [DeleteInterviews (Some (lit "alice@x.com")); DeleteResults None; DeleteUser 1] /\
  toasts (deleteUser (E := Examples.engine) Scenarios.root_delete_fails 1
            (Examples.world_of [Examples.alice; Examples.bob]))
  = [ToastError (lit "Failed to delete user")].
Proof.
  destruct (root_failure_after_dependents (E := Examples.engine)
              Scenarios.root_delete_fails 1
              (Examples.world_of [Examples.alice; Examples.bob])
              (r1 := Examples.ok) (r2 := Examples.ok) eq_refl eq_refl)
    as [Hsent [_ Htoasts]].
  - simpl. discriminate.
  - split; [exact Hsent | exact Htoasts].
Defined.

(** Witness of X12: the delete of alice's interviews rejects. *)
Lemma rejected_dependent_stops_delete_witness :
  toasts (deleteUser (E := Examples.engine) Scenarios.interviews_delete_rejects 1
            (Examples.world_of [Examples.alice; Examples.bob]))
  = [ToastError (lit "Failed to delete user")].
Proof.
  apply (rejected_dependent_stops_delete (E := Examples.engine)
           Scenarios.interviews_delete_rejects 1
           (Examples.world_of [Examples.alice; Examples.bob])).
  left. eexists. reflexivity.
Defined.

(** Witness of X13: nobody has the identifier 99. *)
Lemma delete_of_unknown_id_witness :
  exists rest,
    sent (deleteUser (E := Examples.engine) Scenarios.steady 99
            (Examples.world_of [Examples.alice; Examples.bob]))
    = [] ++ DeleteInterviews None :: rest /\
    (rest = [] \/ rest = [DeleteResults None] \/
     rest = [DeleteResults None; DeleteUser 99]).
Proof.
  apply (delete_of_unknown_id (E := Examples.engine) Scenarios.steady
           (userId := 99) (Examples.world_of [Examples.alice; Examples.bob])).
  intros u Hin. vm_compute in Hin.
  destruct Hin as [<- | [<- | []]]; discriminate.
Defined.

(** Witness of X14: a ban of bob that the backend accepts, on the steady
    backend: the success is notified and the page shows the two rows of
    the refresh. *)
Lemma ban_outcome_witness :
  toasts (banUser (E := Examples.engine) Scenarios.update_ok Scenarios.steady 2 true
            (Examples.world_of []))
  = [ToastSuccess (lit "User banned successfully")] /\
  List.map (fun u : user => id u)
    (users (page (banUser (E := Examples.engine) Scenarios.update_ok Scenarios.steady 2 true
                    (Examples.world_of []))))
  = [1; 2].
Proof.
  destruct (proj1 (ban_outcome (E := Examples.engine) Scenarios.steady
                     Scenarios.update_ok 2 true (Examples.world_of []))
              Examples.ok eq_refl eq_refl) as [Hrun _].
  rewrite Hrun. split; vm_compute; reflexivity.
Defined.

(** Witness of X15: the page showing alice and bob. *)
Lemma actions_keep_query_and_sync_witness :
  synced (E := Examples.engine)
    (page (deleteUser (E := Examples.engine) Scenarios.steady 1
             (Examples.world_of [Examples.alice; Examples.bob]))).
Proof.
  apply (proj2 (actions_keep_query_and_sync (E := Examples.engine) Scenarios.steady
                  Scenarios.update_ok 1 true
                  (Examples.world_of [Examples.alice; Examples.bob]))).
  vm_compute. reflexivity.
Defined.

(** ** More on the exporter *)

Section MoreExport.
Context {E : Engine}.






End MoreExport.

(** ** Sorting on the name *)

Lemma str_le_trans (s t r : jsstring) : str_le s t -> str_le t r -> str_le s r.
Proof.
  rewrite !str_le_alt. revert t r.
  induction s as [|a s IH]; intros t r Hst Htr.
  - destruct r; reflexivity.
  - destruct t as [|b t]; [simpl in Hst; discriminate|].
    destruct r as [|c r]; [simpl in Htr; discriminate|].
    simpl in *.
    destruct (N.ltb_spec b a), (N.ltb_spec a b), (N.ltb_spec c b), (N.ltb_spec b c),
      (N.ltb_spec c a), (N.ltb_spec a c); try discriminate; try lia; try reflexivity.
    eapply IH; eassumption.
Qed.

Lemma Sorted_restrict {A : Type} (R : A -> A -> Prop) (P : A -> Prop) (l : list A) :
  Sorted R l -> Forall P l -> Sorted (fun a b => P a /\ P b /\ R a b) l.
Proof.
  induction 1 as [|a l Hl IH Hhd]; intros Hall; constructor.
  - apply IH. inversion Hall; assumption.
  - inversion Hall as [|? ? Pa Pl]; subst.
    destruct Hhd as [|b l Hab]; constructor.
    inversion Pl; subst. auto.
Qed.

Lemma StronglySorted_weaken {A : Type} (R R' : A -> A -> Prop) (l : list A) :
  (forall a b, R a b -> R' a b) -> StronglySorted R l -> StronglySorted R' l.
Proof.
  intros Himp. induction 1 as [|a l Hl IH Hall]; constructor; [exact IH|].
  eapply Forall_impl; [|exact Hall]. intros b. apply Himp.
Qed.

Section SortedByName.
Context {E : Engine}.

Lemma comparator_name_keeps (order : sort_order) (a b : user) :
  name a <> None -> name b <> None ->
  (comparator name_key order a b < 0 -> name_order order a b) /\
  (0 <= comparator name_key order a b -> name_order order b a).
Proof.
  unfold comparator, js_gt, name_order, name_or_empty. simpl.
  destruct (name a) as [s|]; [|congruence].
  destruct (name b) as [t|]; [|congruence].
  intros _ _. simpl. destruct order; rewrite !str_le_alt.
  - destruct (str_lt t s) eqn:H; split; intros; try lia; try reflexivity.
    apply str_lt_asym. exact H.
  - destruct (str_lt s t) eqn:H; split; intros; try lia; try reflexivity.
    apply str_lt_asym. exact H.
Qed.

(** X18: when every user has a name, the visible list sorted on the name
    is in order as a whole: ascending, no name is greater (code unit by
    code unit) than one after it; descending, none is smaller. *)
Theorem sorted_by_name us term order show :
  Forall (fun u : user => name u <> None) us ->
  StronglySorted (name_order order)
    (filterAndSortUsers us term name_key order show).
Proof.
  intros Hnamed.
  set (P := fun u : user => name u <> None).
  set (R := fun a b : user => P a -> P b -> name_order order a b).
  assert (Hsorted : Sorted R (filterAndSortUsers us term name_key order show)).
  { apply sort_sorted with (Compare := comparator name_key order).
    - intros a b Hle Pa Pb. apply (comparator_name_keeps order a b Pa Pb). exact Hle.
    - intros a b Hlt Pb Pa. apply (comparator_name_keeps order a b Pa Pb). exact Hlt. }
  assert (Hall : Forall P (filterAndSortUsers us term name_key order show)).
  { apply Forall_forall. intros u Hu. apply In_filterAndSortUsers in Hu.
    destruct Hu as [Hu _]. revert u Hu. apply Forall_forall. exact Hnamed. }
  apply StronglySorted_weaken
    with (R := fun a b => P a /\ P b /\ R a b).
  - intros a b [Pa [Pb Hab]]. apply Hab; assumption.
  - apply Sorted_StronglySorted.
    + intros a b c [Pa [Pb Hab]] [_ [Pc Hbc]]. split; [exact Pa|]. split; [exact Pc|].
      intros _ _. specialize (Hab Pa Pb). specialize (Hbc Pb Pc).
      unfold name_order in *. destruct order; eapply str_le_trans; eassumption.
    + apply Sorted_restrict; assumption.
Qed.

End SortedByName.

(** Witness of X18: bob and alice, by name, descending. *)
Lemma sorted_by_name_witness :
  StronglySorted (name_order desc)
    (filterAndSortUsers (E := Examples.engine) [Examples.alice; Examples.bob]
       [] name_key desc true).
Proof.
  apply (sorted_by_name (E := Examples.engine)).
  repeat constructor; discriminate.
Defined.

(** The order V8 gives where the comparator is not a consistent one.
    A missing name: of b, a user without a name, and a, the three come
    out of the ascending sort on the name as one descending run turned
    round.  Equal keys: Ann and Ben, three interviews each, and Cid with
    five, sorted on the count, descending, come out as Cid, Ben, Ann. *)
Example missing_name_order :
  let b := Examples.mk 1 (Some (lit "b")) (Some (lit "b@x.com")) None None false 0 0 in
  let n := Examples.mk 2 None (Some (lit "n@x.com")) None None false 0 0 in
  let a := Examples.mk 3 (Some (lit "a")) (Some (lit "a@x.com")) None None false 0 0 in
  filterAndSortUsers (E := Examples.engine) [b; n; a] [] name_key asc true = [a; n; b].
Proof. vm_compute. reflexivity. Qed.

Example equal_counts_order :
  let ann := Examples.mk 1 (Some (lit "Ann")) (Some (lit "ann@x.com")) None None false 3 0 in
  let ben := Examples.mk 2 (Some (lit "Ben")) (Some (lit "ben@x.com")) None None false 3 0 in
  let cid := Examples.mk 3 (Some (lit "Cid")) (Some (lit "cid@x.com")) None None false 5 0 in
  List.map (fun u : user => id u)
    (filterAndSortUsers (E := Examples.engine) [ann; ben; cid] [] interviewCount_key desc true)
  = [3; 2; 1].
Proof. vm_compute. reflexivity. Qed.

(** ** The table against the cards *)

Section TableFacts.
Context {E : Engine}.

Lemma keeps_hidden_banned term (u : user) :
  keeps term false u = true -> banned u = false.
Proof.
  unfold keeps, matchesBannedFilter. simpl. intros H.
  apply andb_true_iff in H. destruct H as [_ H].
  apply negb_true_iff in H. exact H.
Qed.

(** X19: the number of users the table lists never exceeds the Total
    Users card, and with the banned users hidden the table and the Banned
    Users card together do not exceed it either. *)
Theorem table_count_within_cards us term by_ order show :
  (length (filterAndSortUsers us term by_ order show) <= Cards.totalUsers us)%nat /\
  (length (filterAndSortUsers us term by_ order false) + Cards.bannedUsers us
   <= Cards.totalUsers us)%nat.
Proof.
  unfold Cards.totalUsers, Cards.bannedUsers.
  rewrite !(Permutation_length (filterAndSortUsers_perm _ _ _ _ _)). split.
  - apply filter_length_le.
  - apply filter_disjoint_length. intros u Hu. apply (keeps_hidden_banned _ _ Hu).
Qed.

Lemma includes_empty (s : jsstring) : includes s [] = true.
Proof. apply includes_spec. exists [], s. reflexivity. Qed.

(** X20: with an empty search term and the banned users included (the
    state the page starts in), the table lists every user that has a
    name or an email, each once, provided lowercasing the empty string
    gives the empty string. *)
Theorem empty_query_lists_everyone us by_ order :
  toLowerCase [] = [] ->
  Permutation (filterAndSortUsers us [] by_ order true) (filter reachable us).
Proof.
  intros Hlower.
  etransitivity; [apply filterAndSortUsers_perm|].
  erewrite filter_ext; [reflexivity|].
  intros u. unfold keeps, matchesSearch, matchesBannedFilter, field_matches, reachable.
  rewrite Hlower. simpl.
  destruct (name u), (email u); rewrite ?includes_empty; simpl;
    rewrite ?orb_true_r; reflexivity.
Qed.

End TableFacts.

(** Witness of X20: alice, nobody and bob. *)
Lemma empty_query_lists_everyone_witness :
  Permutation
    (filterAndSortUsers (E := Examples.engine)
       [Examples.alice; Scenarios.nobody; Examples.bob] [] created_at_key desc true)
    (filter reachable [Examples.alice; Scenarios.nobody; Examples.bob]).
Proof.
  apply (empty_query_lists_everyone (E := Examples.engine)).
  reflexivity.
Defined.
